(** * GenSherlockLLM: corpus cleaning, chunking and dataset audit

    A shallow embedding of [src/data_prep/preprocess.py] (functions
    [download_books], [clean_gutenberg], [chunk_text], [process_books]),
    of [src/eval/overlap_check.py] (functions [load_chunks],
    [basic_stats], [detect_duplicates], [sample_chunks]) and of
    [load_dataset] in [src/training/train_lora.py], followed by the
    properties of these functions.

    Conventions of the embedding:
    - a Python [str] is a list of Unicode code points ([list N]);
    - a Python [int] is a [Z];
    - a Python [float] is a binary64 value, written out as mantissa and
      exponent with round-to-nearest-even (module [Float]);
    - a call that can raise returns an [outcome]; the [while] loop of
      [chunk_text] is run with fuel, one unit per evaluation of its
      condition, and [OutOfFuel] is the outcome of a run that needs more;
    - the [print] calls of [clean_gutenberg] and of [sample_chunks] are
      modelled with the standard output (module [Stdout]), on which a
      line that cannot be encoded raises; [basic_stats] and
      [detect_duplicates] return the values that they print; the
      progress lines of [download_books] and [process_books] are not
      part of the model. *)

From Stdlib Require Import String Ascii.
From Stdlib Require Import List Sorted ZArith NArith Lia Bool QArith SpecFloat.
From Stdlib Require Import DecimalNat.
Import ListNotations.

Local Open Scope Z_scope.

(* ================================================================== *)
(** * Part I: the embedding *)
(* ================================================================== *)

(** ** Python values and built-ins *)

Module Py.

(** A character is its code point; a string is the list of its characters. *)
Definition char : Type := N.
Definition str : Type := list char.

(** Literals of the source are written as Rocq strings (ASCII only). *)
Definition str_of (s : string) : str :=
  map N_of_ascii (list_ascii_of_string s).

Definition len {A : Type} (l : list A) : Z := Z.of_nat (length l).

(** The largest length of a string or a list, [sys.maxsize] on a 64-bit
    build. *)
Definition PY_SSIZE_T_MAX : Z := 2 ^ 63 - 1.

(** Built-in exceptions that the modelled code can raise. *)
Inductive exn : Type :=
| ZeroDivisionError
| ValueError
| OverflowError
| AttributeError
| UnicodeEncodeError.

Inductive outcome (A : Type) : Type :=
| Returned (a : A)
| Raised (e : exn)
| OutOfFuel.

Arguments Returned {A} a.
Arguments Raised {A} e.
Arguments OutOfFuel {A}.

Definition bind {A B : Type} (m : outcome A) (f : A -> outcome B) : outcome B :=
  match m with
  | Returned a => f a
  | Raised e => Raised e
  | OutOfFuel => OutOfFuel
  end.

(** [str.isspace] on one character, which is also what [str.split()],
    [str.strip()] and the regular-expression class [\s] test: code points
    U+0009..U+000D, U+001C..U+0020, U+0085, U+00A0, U+1680, U+2000..U+200A,
    U+2028, U+2029, U+202F, U+205F and U+3000. *)
Definition is_space (c : char) : bool :=
  let c := Z.of_N c in
  ((9 <=? c) && (c <=? 13)) || ((28 <=? c) && (c <=? 32))
  || (c =? 133) || (c =? 160) || (c =? 5760)
  || ((8192 <=? c) && (c <=? 8202))
  || (c =? 8232) || (c =? 8233) || (c =? 8239) || (c =? 8287) || (c =? 12288).

(** [text.split()]: maximal runs of non-whitespace characters. [w] is the
    word being read. *)
Fixpoint split_from (w : str) (s : str) : list str :=
  match s with
  | [] => match w with [] => [] | _ => [w] end
  | c :: s' =>
      if is_space c
      then match w with [] => split_from [] s' | _ => w :: split_from [] s' end
      else split_from (w ++ [c]) s'
  end.

Definition split (s : str) : list str := split_from [] s.

(** [sep.join(l)]. *)
Fixpoint join (sep : str) (l : list str) : str :=
  match l with
  | [] => []
  | [x] => x
  | x :: l' => x ++ sep ++ join sep l'
  end.

(** [s.strip()]. *)
Fixpoint lstrip (s : str) : str :=
  match s with
  | c :: s' => if is_space c then lstrip s' else s
  | [] => []
  end.

Definition rstrip (s : str) : str := rev (lstrip (rev s)).

Definition strip (s : str) : str := rstrip (lstrip s).

(** [l[a:b]] for integers [a] and [b]: a negative index counts from the
    end, every index is clamped to [0 .. len l], and the slice is empty
    when the stop is not after the start. Slicing never raises. *)
Definition clamp_index (n i : Z) : Z :=
  if i <? 0 then Z.max (i + n) 0 else Z.min i n.

Definition slice {A : Type} (l : list A) (a b : Z) : list A :=
  let n := len l in
  let a' := clamp_index n a in
  let b' := clamp_index n b in
  firstn (Z.to_nat (b' - a')) (skipn (Z.to_nat a') l).

Fixpoint starts_with (p s : str) : bool :=
  match p, s with
  | [], _ => true
  | _ :: _, [] => false
  | a :: p', b :: s' => N.eqb a b && starts_with p' s'
  end.

(** [s.replace(old, new)] for a non-empty [old]: occurrences are replaced
    from left to right without overlap. [skip] counts the characters of the
    occurrence just replaced that are still to be passed over. *)
Fixpoint replace_from (old new : str) (skip : nat) (s : str) : str :=
  match s with
  | [] => []
  | c :: s' =>
      match skip with
      | S k => replace_from old new k s'
      | O =>
          if starts_with old s
          then new ++ replace_from old new (length old - 1) s'
          else c :: replace_from old new 0 s'
      end
  end.

Definition replace (old new : str) (s : str) : str := replace_from old new 0 s.

(** [str(i)] for a non-negative integer. *)
Fixpoint digits_of (d : Decimal.uint) : str :=
  match d with
  | Decimal.Nil => []
  | Decimal.D0 d' => 48%N :: digits_of d'
  | Decimal.D1 d' => 49%N :: digits_of d'
  | Decimal.D2 d' => 50%N :: digits_of d'
  | Decimal.D3 d' => 51%N :: digits_of d'
  | Decimal.D4 d' => 52%N :: digits_of d'
  | Decimal.D5 d' => 53%N :: digits_of d'
  | Decimal.D6 d' => 54%N :: digits_of d'
  | Decimal.D7 d' => 55%N :: digits_of d'
  | Decimal.D8 d' => 56%N :: digits_of d'
  | Decimal.D9 d' => 57%N :: digits_of d'
  end.

Definition str_of_nat (i : nat) : str := digits_of (Nat.to_uint i).

(** [enumerate(l)]. *)
Definition enumerate {A : Type} (l : list A) : list (nat * A) :=
  combine (seq 0 (length l)) l.

(** [sum], [min] and [max] of a list of integers; the last two raise
    [ValueError] on an empty list. *)
Definition sum (l : list Z) : Z := fold_left Z.add l 0.

Definition py_min (l : list Z) : outcome Z :=
  match l with
  | [] => Raised ValueError
  | x :: l' => Returned (fold_left Z.min l' x)
  end.

Definition py_max (l : list Z) : outcome Z :=
  match l with
  | [] => Raised ValueError
  | x :: l' => Returned (fold_left Z.max l' x)
  end.

End Py.

Import Py.

Declare Scope outcome_scope.
Delimit Scope outcome_scope with outcome.
Notation "x <- m ;; k" := (bind m (fun x => k))
  (at level 61, m at next level, right associativity) : outcome_scope.

Local Open Scope outcome_scope.

(** ** Standard output

    [print] encodes its line with the encoding of [sys.stdout], whose
    error handler is [strict]: a character that the encoding does not
    have raises [UnicodeEncodeError], and nothing of the line is written.
    A stream is given by the characters that its encoding has. A
    computation that prints takes the stream and gives the lines that it
    has written, in order, and its outcome. The line end that [print]
    adds is not kept. *)

Module Stdout.

Definition encoding : Type := char -> bool.

(** The code points U+D800..U+DFFF, which UTF-8 does not encode. *)
Definition is_surrogate (c : char) : bool :=
  ((55296 <=? c) && (c <=? 57343))%N.

Definition utf_8 : encoding := fun c => negb (is_surrogate c).
Definition us_ascii : encoding := fun c => (c <? 128)%N.

Definition can_encode (enc : encoding) (s : str) : bool := forallb enc s.

Definition io (A : Type) : Type := encoding -> list str * outcome A.

Definition ret {A : Type} (a : A) : io A := fun _ => ([], Returned a).

Definition lift {A : Type} (m : outcome A) : io A := fun _ => ([], m).

Definition then_ {A B : Type} (m : io A) (f : A -> io B) : io B :=
  fun enc =>
    match m enc with
    | (written, Returned a) =>
        let (written', b) := f a enc in (written ++ written', b)
    | (written, Raised e) => (written, Raised e)
    | (written, OutOfFuel) => (written, OutOfFuel)
    end.

Definition print (line : str) : io unit :=
  fun enc =>
    if can_encode enc line then ([line], Returned tt)
    else ([], Raised UnicodeEncodeError).

End Stdout.

Notation "x <~ m ;; k" := (Stdout.then_ m (fun x => k))
  (at level 61, m at next level, right associativity) : outcome_scope.
Notation "m ;;; k" := (Stdout.then_ m (fun _ => k))
  (at level 61, right associativity) : outcome_scope.

(** ** The regular expressions of the source

    The patterns of the source are sequences of single characters, of
    character classes under a greedy [*] or [+], of one lazy [.*?] and of
    one alternation of words. [match_here] is a backtracking matcher for
    such sequences with the priorities of Python's [re]: a greedy
    repetition first takes as many characters as it can, a lazy one as few,
    an alternation tries its branches from left to right. *)

Module Re.

Definition is_upper (c : char) : bool := (N.leb 65 c) && (N.leb c 90).
Definition is_lower (c : char) : bool := (N.leb 97 c) && (N.leb c 122).

Definition swapcase (c : char) : char :=
  if is_upper c then (c + 32)%N else if is_lower c then (c - 32)%N else c.

Definition lower (c : char) : char := if is_upper c then (c + 32)%N else c.

(** Under [re.IGNORECASE] an ASCII letter of a pattern also matches the
    non-ASCII characters whose case folding it shares: U+0130 and U+0131
    for [i], U+017F for [s], U+212A for [k]. *)
Definition ignorecase_extra (p c : char) : bool :=
  let l := lower p in
  if N.eqb l 105 then N.eqb c 304 || N.eqb c 305
  else if N.eqb l 115 then N.eqb c 383
  else if N.eqb l 107 then N.eqb c 8490
  else false.

(** One-character matchers: a literal, a literal of a pattern compiled
    with [re.IGNORECASE] (ASCII literals only), [\s], and [.] under
    [re.DOTALL]. *)
Inductive cls : Type :=
| Chr (p : char)
| ChrI (p : char)
| Space
| Any.

Definition cls_match (k : cls) (c : char) : bool :=
  match k with
  | Chr p => N.eqb c p
  | ChrI p => N.eqb c p || N.eqb c (swapcase p) || ignorecase_extra p c
  | Space => is_space c
  | Any => true
  end.

Inductive item : Type :=
| One (k : cls)                  (* k *)
| Star (k : cls)                 (* k*  *)
| Plus (k : cls)                 (* k+  *)
| LazyStar (k : cls)             (* k*? *)
| Alt (branches : list (list cls)). (* (?:w1|w2|...) *)

Definition regex : Type := list item.

(** Each matcher takes the matcher [k] of the rest of the pattern and
    returns the number of characters of the first match in priority
    order. *)
Fixpoint seq_then (ks : list cls) (k : str -> option nat) (s : str) : option nat :=
  match ks with
  | [] => k s
  | c :: ks' =>
      match s with
      | x :: s' => if cls_match c x then option_map S (seq_then ks' k s') else None
      | [] => None
      end
  end.

Fixpoint greedy_then (c : cls) (k : str -> option nat) (s : str) : option nat :=
  match s with
  | x :: s' =>
      if cls_match c x
      then match greedy_then c k s' with
           | Some n => Some (S n)
           | None => k s
           end
      else k s
  | [] => k s
  end.

Fixpoint lazy_then (c : cls) (k : str -> option nat) (s : str) : option nat :=
  match k s with
  | Some n => Some n
  | None =>
      match s with
      | x :: s' => if cls_match c x then option_map S (lazy_then c k s') else None
      | [] => None
      end
  end.

Fixpoint alt_then (branches : list (list cls)) (k : str -> option nat) (s : str)
  : option nat :=
  match branches with
  | [] => None
  | b :: branches' =>
      match seq_then b k s with
      | Some n => Some n
      | None => alt_then branches' k s
      end
  end.

Fixpoint match_here (r : regex) : str -> option nat :=
  match r with
  | [] => fun _ => Some O
  | One c :: r' => seq_then [c] (match_here r')
  | Star c :: r' => greedy_then c (match_here r')
  | Plus c :: r' => seq_then [c] (greedy_then c (match_here r'))
  | LazyStar c :: r' => lazy_then c (match_here r')
  | Alt bs :: r' => alt_then bs (match_here r')
  end.

(** [re.search(r, s)]: the match at the leftmost position that has one, as
    the pair of [m.start()] and [m.end()]; [None] when there is none. *)
Fixpoint search_from (r : regex) (pos : nat) (s : str) : option (nat * nat) :=
  match match_here r s with
  | Some n => Some (pos, (pos + n)%nat)
  | None =>
      match s with
      | [] => None
      | _ :: s' => search_from r (S pos) s'
      end
  end.

Definition search (r : regex) (s : str) : option (nat * nat) := search_from r 0 s.

(** [m.start()] and [m.end()] on the result of [re.search]: [None] has no
    such attribute. *)
Definition match_start (m : option (nat * nat)) : outcome Z :=
  match m with
  | Some (a, _) => Returned (Z.of_nat a)
  | None => Raised AttributeError
  end.

Definition match_end (m : option (nat * nat)) : outcome Z :=
  match m with
  | Some (_, b) => Returned (Z.of_nat b)
  | None => Raised AttributeError
  end.

(** Truth value of a match object in a condition. *)
Definition found (m : option (nat * nat)) : bool :=
  match m with Some _ => true | None => false end.

(** [re.sub(r, repl, s)] for a pattern that matches no empty string (true
    of the three patterns substituted in the source): matches are replaced
    from left to right without overlap. [skip] counts the characters of the
    match just replaced that are still to be passed over. *)
Fixpoint sub_from (r : regex) (repl : str) (skip : nat) (s : str) : str :=
  match s with
  | [] => []
  | c :: s' =>
      match skip with
      | S k => sub_from r repl k s'
      | O =>
          match match_here r s with
          | Some (S n) => repl ++ sub_from r repl n s'
          | _ => c :: sub_from r repl 0 s'
          end
      end
  end.

Definition sub (r : regex) (repl : str) (s : str) : str := sub_from r repl 0 s.

(** A word of a pattern compiled with [re.IGNORECASE]. *)
Definition word (w : string) : list cls := map ChrI (str_of w).

Definition lit (w : string) : regex := map One (word w).

End Re.

(** ** Binary64 arithmetic

    The fallback of [clean_gutenberg] computes [int(0.1 * n)] and
    [int(0.9 * n)], and [basic_stats] divides two integers: the operands
    are non-negative, so only non-negative doubles are modelled. A finite
    double is a mantissa [m >= 0] and an exponent [e], of value
    [m * 2^e]. *)

Module Float.

Inductive double : Type :=
| Finite (m e : Z)
| Infinity
| NaN.

Definition prec : Z := 53.
Definition emin : Z := -1074.
Definition emax : Z := 1024.

Definition bit_length (m : Z) : Z := if m <=? 0 then 0 else Z.log2 m + 1.

(** The double nearest to [m * 2^e] for [m >= 0], ties to the even
    mantissa; [Infinity] from [2^1024] on. *)
Definition round_ne (m e : Z) : double :=
  let e' := Z.max (bit_length m + e - prec) emin in
  let q' :=
    if e' <=? e then m
    else
      let sh := e' - e in
      let q := m / 2 ^ sh in
      let r := m mod 2 ^ sh in
      let half := 2 ^ (sh - 1) in
      if r <? half then q
      else if half <? r then q + 1
      else if Z.even q then q else q + 1 in
  let e_out := Z.max e e' in
  if emax <? bit_length q' + e_out then Infinity else Finite q' e_out.

(** The literals [0.1] and [0.9]: 0x1.999999999999ap-4 and
    0x1.ccccccccccccdp-1. *)
Definition lit_0_1 : double := Finite 7205759403792794 (-56).
Definition lit_0_9 : double := Finite 8106479329266893 (-53).

(** Conversion of an [int] operand (non-negative here): [OverflowError]
    when it is too large for a double. *)
Definition of_int (n : Z) : outcome double :=
  match round_ne n 0 with
  | Infinity => Raised OverflowError
  | x => Returned x
  end.

Definition is_zero (x : double) : bool :=
  match x with Finite m _ => m =? 0 | _ => false end.

Definition mul (x y : double) : double :=
  match x, y with
  | Finite m1 e1, Finite m2 e2 => round_ne (m1 * m2) (e1 + e2)
  | NaN, _ | _, NaN => NaN
  | Infinity, z | z, Infinity => if is_zero z then NaN else Infinity
  end.

(** [x * n] for a float [x] and an int [n]. *)
Definition mul_int (x : double) (n : Z) : outcome double :=
  y <- of_int n ;; Returned (mul x y).

(** [int(x)]: truncation; [OverflowError] on an infinity, [ValueError] on
    a NaN. *)
Definition to_int (x : double) : outcome Z :=
  match x with
  | Finite m e => Returned (if 0 <=? e then m * 2 ^ e else m / 2 ^ (- e))
  | Infinity => Raised OverflowError
  | NaN => Raised ValueError
  end.

(** [int(x * n)]. *)
Definition scaled_int (x : double) (n : Z) : outcome Z :=
  y <- mul_int x n ;; to_int y.

(** [a / b] for ints [a >= 0] and [b >= 0]: [ZeroDivisionError] when [b]
    is zero, else the double nearest to the exact quotient
    ([OverflowError] when that is out of range). The quotient is taken to
    more than [prec] + 2 bits and its last bit records whether the
    division left a remainder. *)
Definition int_truediv (a b : Z) : outcome double :=
  if b =? 0 then Raised ZeroDivisionError
  else
    let k := bit_length b + prec + 2 in
    let q := (a * 2 ^ k) / b in
    let sticky := if (a * 2 ^ k) mod b =? 0 then 0 else 1 in
    match round_ne (2 * q + sticky) (- (k + 1)) with
    | Infinity => Raised OverflowError
    | x => Returned x
    end.

(** The rational value of a finite double. *)
Definition to_Q (x : double) : option Q :=
  match x with
  | Finite m e =>
      Some (Qred (if 0 <=? e then inject_Z (m * 2 ^ e)
                  else Qmake m (Z.to_pos (2 ^ (- e)))))
  | _ => None
  end.

End Float.

(** ** [src/data_prep/preprocess.py] *)

Module Preprocess.

Import Re.

(** [r"\*\*\*\s*START\s+OF\s+(?:THE|THIS)\s+PROJECT\s+GUTENBERG\s+EBOOK.*?\*\*\*"]
    and the same with [END], both used with [re.IGNORECASE | re.DOTALL]. *)
Definition marker_pattern (keyword : string) : regex :=
  lit "***" ++ [Star Space] ++ lit keyword ++ [Plus Space] ++ lit "OF"
  ++ [Plus Space] ++ [Alt [word "THE"; word "THIS"]] ++ [Plus Space]
  ++ lit "PROJECT" ++ [Plus Space] ++ lit "GUTENBERG" ++ [Plus Space]
  ++ lit "EBOOK" ++ [LazyStar Any] ++ lit "***".

Definition start_pattern : regex := marker_pattern "START".
Definition end_pattern : regex := marker_pattern "END".

(** [r"_+"], [r"\s+"] and [r"(?i)contents\s+I\."]. *)
Definition underscores : regex := [Plus (Chr 95%N)].
Definition whitespace_run : regex := [Plus Space].
Definition contents_heading : regex :=
  lit "contents" ++ [Plus Space] ++ lit "I" ++ [One (Chr 46%N)].

(** Line 61: both line-ending replacements. *)
Definition CR : char := 13%N.
Definition LF : char := 10%N.

Definition normalize_newlines (text : str) : str :=
  replace [CR] [LF] (replace [CR; LF] [LF] text).

(** Lines 71-80: the text between the markers, or the middle of the text. *)
Definition extract (text : str) : outcome str :=
  let start_match := search start_pattern text in
  let end_match := search end_pattern text in
  if found start_match && found end_match then
    start_pos <- match_end start_match ;;
    end_pos <- match_start end_match ;;
    Returned (strip (slice text start_pos end_pos))
  else
    let n := len text in
    lo <- Float.scaled_int Float.lit_0_1 n ;;
    hi <- Float.scaled_int Float.lit_0_9 n ;;
    Returned (slice text lo hi).

(** Lines 83-88: underscores, whitespace, table-of-contents heading. *)
Definition postprocess (story_text : str) : str :=
  let story_text := sub underscores [] story_text in
  let story_text := sub whitespace_run (str_of " ") story_text in
  let story_text := strip story_text in
  sub contents_heading [] story_text.

(** The value that [clean_gutenberg] returns. Its two [print] calls
    (lines 76 and 78) are left to [clean_gutenberg_stdout] below, which
    returns this value whenever the line can be written. *)
Definition clean_gutenberg (text : str) : outcome str :=
  let text := normalize_newlines text in
  story_text <- extract text ;;
  Returned (postprocess story_text).

(** The line of line 76, which begins with U+2705 and holds
    [len(story_text)], and the line of line 78, which begins with U+26A0
    and U+FE0F. *)
Definition found_line (story_text : str) : str :=
  [9989%N] ++ str_of " Found markers, extracted "
  ++ str_of_nat (length story_text) ++ str_of " characters".

Definition fallback_line : str :=
  [9888%N; 65039%N]
  ++ str_of " Could not find explicit START/END markers, using middle 80% fallback.".

(** [clean_gutenberg] with its output (lines 61-90). *)
Definition clean_gutenberg_stdout (text : str) : Stdout.io str :=
  let text := normalize_newlines text in
  let start_match := search start_pattern text in
  let end_match := search end_pattern text in
  story_text <~
    (if found start_match && found end_match then
       start_pos <~ Stdout.lift (match_end start_match) ;;
       end_pos <~ Stdout.lift (match_start end_match) ;;
       let story_text := strip (slice text start_pos end_pos) in
       Stdout.print (found_line story_text) ;;;
       Stdout.ret story_text
     else
       Stdout.print fallback_line ;;;
       let n := len text in
       lo <~ Stdout.lift (Float.scaled_int Float.lit_0_1 n) ;;
       hi <~ Stdout.lift (Float.scaled_int Float.lit_0_9 n) ;;
       Stdout.ret (slice text lo hi)) ;;
  Stdout.ret (postprocess story_text).

(** The [while] loop of [chunk_text] (lines 104-109); [fuel] bounds the
    number of times its condition is evaluated. *)
Fixpoint chunk_loop (fuel : nat) (words : list str)
  (max_words min_words overlap : Z) (start : Z) (chunks : list str)
  : outcome (list str) :=
  match fuel with
  | O => OutOfFuel
  | S fuel' =>
      if start <? len words then
        let end_ := start + max_words in
        let chunk_words := slice words start end_ in
        let chunks :=
          if min_words <=? len chunk_words
          then chunks ++ [join (str_of " ") chunk_words]
          else chunks in
        chunk_loop fuel' words max_words min_words overlap
          (start + (max_words - overlap)) chunks
      else Returned chunks
  end.

Definition chunk_text (fuel : nat) (text : str) (max_words min_words overlap : Z)
  : outcome (list str) :=
  chunk_loop fuel (split text) max_words min_words overlap 0 [].


(** One record of a chunk file and one entry of the manifest. *)
Record chunk_record : Type := { id : str; text : str }.




End Preprocess.

(** ** [src/eval/overlap_check.py] *)

Module OverlapCheck.

(** What [basic_stats] prints. *)
Record stats : Type :=
  { total_chunks : Z; avg_words : Float.double; min_words : Z; max_words : Z }.

Definition basic_stats (chunks : list (str * str)) : outcome stats :=
  let word_counts := map (fun c => len (split (snd c))) chunks in
  let total_chunks := len chunks in
  avg_words <- Float.int_truediv (sum word_counts) total_chunks ;;
  min_words <- py_min word_counts ;;
  max_words <- py_max word_counts ;;
  Returned {| total_chunks := total_chunks; avg_words := avg_words;
              min_words := min_words; max_words := max_words |}.

Fixpoint str_eqb (a b : str) : bool :=
  match a, b with
  | [], [] => true
  | x :: a', y :: b' => N.eqb x y && str_eqb a' b'
  | _, _ => false
  end.

(** [Counter(texts)]: a dictionary from text to count, in the order of
    first insertion. *)
Fixpoint counter_add (t : str) (c : list (str * Z)) : list (str * Z) :=
  match c with
  | [] => [(t, 1)]
  | (k, n) :: c' =>
      if str_eqb k t then (k, n + 1) :: c' else (k, n) :: counter_add t c'
  end.

Definition Counter (texts : list str) : list (str * Z) :=
  fold_left (fun c t => counter_add t c) texts [].

(** What [detect_duplicates] prints. *)
Inductive line : Type :=
| FoundDuplicates (groups : Z) (top_n : Z)
| DuplicateLine (count : Z) (snippet : str)
| NoDuplicates.

(** [detect_duplicates] returns nothing; the model returns its local
    [duplicates] and the lines it prints. *)
Definition detect_duplicates (chunks : list (str * str)) (top_n : Z)
  : list (str * Z) * list line :=
  let texts := map snd chunks in
  let counter := Counter texts in
  let duplicates := filter (fun tc => 1 <? snd tc) counter in
  match duplicates with
  | _ :: _ =>
      (duplicates,
       FoundDuplicates (len duplicates) top_n
       :: map (fun tc =>
                 DuplicateLine (snd tc)
                   (replace [10%N] (str_of " ") (slice (fst tc) 0 100)))
              (slice duplicates 0 top_n))
  | [] => (duplicates, [NoDuplicates])
  end.

Definition default_top_n : Z := 5.

End OverlapCheck.

(** ** [download_books] ([src/data_prep/preprocess.py], lines 26-51)

    The files and the network are explicit. A world is the content of
    every path that exists and the URLs requested so far, in order. The
    network is a function [get]: for the URLs requested so far and the URL
    requested now, what [requests.get] does. The directory [data/raw]
    exists (line 22) and can be written to; the progress lines (lines
    44, 46 and 51) are taken to be written: they hold the names and the
    URLs of [BOOKS] and signs that UTF-8 encodes. *)

Module Download.

Definition BOOKS : list (str * str) :=
  [ (str_of "study_in_scarlet", str_of "https://www.gutenberg.org/cache/epub/244/pg244.txt");
    (str_of "sign_of_four", str_of "https://www.gutenberg.org/cache/epub/2097/pg2097.txt");
    (str_of "hound_baskervilles", str_of "https://www.gutenberg.org/cache/epub/2852/pg2852.txt");
    (str_of "valley_of_fear", str_of "https://www.gutenberg.org/cache/epub/3289/pg3289.txt");
    (str_of "adventures", str_of "https://www.gutenberg.org/cache/epub/1661/pg1661.txt");
    (str_of "memoirs", str_of "https://www.gutenberg.org/cache/epub/834/pg834.txt");
    (str_of "return", str_of "https://www.gutenberg.org/cache/epub/221/pg221.txt");
    (str_of "his_last_bow", str_of "https://www.gutenberg.org/cache/epub/2350/pg2350.txt");
    (str_of "casebook", str_of "https://www.gutenberg.org/cache/epub/69700/pg69700.txt") ].

(** What ends the loop: an exception of [requests.get] itself, the
    [HTTPError] of [raise_for_status], or a built-in exception, which is
    the [UnicodeEncodeError] of [write_text]. *)
Inductive fetch_exn : Type :=
| ConnectionError
| Timeout
| OtherRequestException
| HTTPError (status_code : Z)
| Builtin (e : exn).

(** What [requests.get(url, timeout=30)] does: it returns a response, with
    its status code and its text, or it raises. *)
Inductive reply : Type :=
| Response (status_code : Z) (text : str)
| Raises (e : fetch_exn).

Record world : Type :=
  { files : str -> option str; requested : list str }.

(** [RAW_DIR / f"{name}.txt"]. *)
Definition dest_of (name : str) : str :=
  str_of "data/raw/" ++ name ++ str_of ".txt".

(** The files after [dest] has been written with [text]. *)
Definition write_text (fs : str -> option str) (dest text : str)
  : str -> option str :=
  fun p => if OverlapCheck.str_eqb p dest then Some text else fs p.

(** [r.raise_for_status()] raises for the status codes from 400 to 599. *)
Definition is_error_status (status_code : Z) : bool :=
  (400 <=? status_code) && (status_code <? 600).

(** The loop of [download_books] over the items of a dictionary. The
    result is the world that the loop leaves and the exception that ended
    it, if one did. [dest.write_text(r.text, encoding="utf-8")] opens the
    file for writing, which creates it empty, and then encodes the text:
    a text with a surrogate raises [UnicodeEncodeError] and the file is
    left empty. *)
Fixpoint download_loop (get : list str -> str -> reply)
  (books : list (str * str)) (w : world) : world * option fetch_exn :=
  match books with
  | [] => (w, None)
  | (name, url) :: rest =>
      let dest := dest_of name in
      match files w dest with
      | Some _ => download_loop get rest w
      | None =>
          let asked := {| files := files w;
                          requested := requested w ++ [url] |} in
          match get (requested w) url with
          | Raises e => (asked, Some e)
          | Response status_code text =>
              if is_error_status status_code
              then (asked, Some (HTTPError status_code))
              else if Stdout.can_encode Stdout.utf_8 text
              then download_loop get rest
                     {| files := write_text (files w) dest text;
                        requested := requested asked |}
              else ({| files := write_text (files w) dest [];
                       requested := requested asked |},
                    Some (Builtin UnicodeEncodeError))
          end
      end
  end.

Definition download_books (get : list str -> str -> reply) (w : world)
  : world * option fetch_exn :=
  download_loop get BOOKS w.

End Download.

(** ** [load_chunks], [sample_chunks] ([src/eval/overlap_check.py]) and
    [load_dataset] ([src/training/train_lora.py])

    A chunk file, once [json.load] has read it, is a list of
    dictionaries. A dictionary is modelled by its lookup, from a key to
    the string under it, if there is one: the values under ["id"] and
    ["text"] are taken to be strings, as [process_books] writes them.
    The files are given in the order in which [CLEAN_DIR.glob("*.json")]
    enumerates them; failures to open or to parse a file are not part of
    the model. *)

Module Loading.

Import Preprocess.

Definition item : Type := str -> option str.

Inductive loaded (A : Type) : Type :=
| Loaded (a : A)
| KeyError (key : str).

Arguments Loaded {A} a.
Arguments KeyError {A} key.

(** [item[key]]. *)
Definition getitem (it : item) (key : str) : loaded str :=
  match it key with
  | Some v => Loaded v
  | None => KeyError key
  end.

(** Lines 25-26 of [overlap_check.py]: the pairs of one file, appended to
    those read so far. *)
Fixpoint append_pairs (data : list item) (all_chunks : list (str * str))
  : loaded (list (str * str)) :=
  match data with
  | [] => Loaded all_chunks
  | it :: data' =>
      match getitem it (str_of "id") with
      | KeyError k => KeyError k
      | Loaded i =>
          match getitem it (str_of "text") with
          | KeyError k => KeyError k
          | Loaded t => append_pairs data' (all_chunks ++ [(i, t)])
          end
      end
  end.

Fixpoint load_files (files : list (list item)) (all_chunks : list (str * str))
  : loaded (list (str * str)) :=
  match files with
  | [] => Loaded all_chunks
  | data :: files' =>
      match append_pairs data all_chunks with
      | KeyError k => KeyError k
      | Loaded all_chunks' => load_files files' all_chunks'
      end
  end.

Definition load_chunks (files : list (list item)) : loaded (list (str * str)) :=
  load_files files [].

(** [load_dataset] of [train_lora.py] (lines 30-37). Line 36: the texts
    of the rows of one file, each row being a dictionary with the one
    key ["text"]. *)
Fixpoint texts_of (chunks : list item) : loaded (list str) :=
  match chunks with
  | [] => Loaded []
  | c :: chunks' =>
      match getitem c (str_of "text") with
      | KeyError k => KeyError k
      | Loaded t =>
          match texts_of chunks' with
          | KeyError k => KeyError k
          | Loaded ts => Loaded (t :: ts)
          end
      end
  end.

Fixpoint extend_files (files : list (list item)) (data : list str)
  : loaded (list str) :=
  match files with
  | [] => Loaded data
  | chunks :: files' =>
      match texts_of chunks with
      | KeyError k => KeyError k
      | Loaded ts => extend_files files' (data ++ ts)
      end
  end.

(** [Dataset.from_list] belongs to the [datasets] library and is not
    modelled: it is the parameter [from_list], applied to the texts of
    the rows; what it gives, a dataset or an exception of its own, is of
    a type [D]. *)
Definition load_dataset {D : Type} (from_list : list str -> D)
  (files : list (list item)) : loaded D :=
  match extend_files files [] with
  | Loaded data => Loaded (from_list data)
  | KeyError k => KeyError k
  end.

(** The dictionary that [process_books] writes for a record (line 124). *)
Definition item_of (r : chunk_record) : item :=
  fun key =>
    if OverlapCheck.str_eqb key (str_of "id") then Some (id r)
    else if OverlapCheck.str_eqb key (str_of "text") then Some (text r)
    else None.

(** [sample_chunks] (lines 60-65) with its output. The heading of line
    62 is a line feed, U+1F4DA and [" Sample chunks:"]; the line of line
    65 is [f"{i+1}. {snippet}...\n"]. *)
Definition samples_heading : str :=
  [10%N; 128218%N] ++ str_of " Sample chunks:".

Definition sample_line (i : nat) (text : str) : str :=
  let snippet := replace [10%N] (str_of " ") (slice text 0 300) in
  str_of_nat (i + 1) ++ str_of ". " ++ snippet ++ str_of "..." ++ [10%N].

Fixpoint sample_loop (l : list (nat * (str * str))) : Stdout.io unit :=
  match l with
  | [] => Stdout.ret tt
  | (i, (_, text)) :: l' =>
      Stdout.print (sample_line i text) ;;; sample_loop l'
  end.

Definition sample_chunks (chunks : list (str * str)) (n : Z)
  : Stdout.io unit :=
  Stdout.print samples_heading ;;;
  sample_loop (enumerate (slice chunks 0 n)).

End Loading.

(* ================================================================== *)
(** * Part II: properties *)
(* ================================================================== *)

(** ** The embedding on examples

    Each right-hand side is the value that CPython 3.11 gives for the
    expression of the source on the same input. *)

Module Examples.

Import Re Preprocess.

Example split_example :
  split ([32; 32] ++ str_of "a" ++ [9] ++ str_of "b c " ++ [10])%N
  = [str_of "a"; str_of "b"; str_of "c"].
Proof. vm_compute. reflexivity. Qed.

Example strip_example : strip ([31; 32; 97; 32; 133])%N = [97%N].
Proof. vm_compute. reflexivity. Qed.

Example slice_example :
  slice (str_of "abcdef") (-4) 5 = str_of "cde"
  /\ slice (str_of "abcdef") 4 2 = []
  /\ slice (str_of "abcdef") 2 (-7) = []
  /\ slice (str_of "abcdef") 3 100 = str_of "def".
Proof. repeat split; vm_compute; reflexivity. Qed.

Example normalize_newlines_example :
  normalize_newlines ([97; 13; 10; 98; 13; 99; 10; 13; 13; 10])%N
  = ([97; 10; 98; 10; 99; 10; 10; 10])%N.
Proof. vm_compute. reflexivity. Qed.

(** [re.search] of the START pattern in
    ["xx***START  OF\nTHIS project Gutenberg\tEBOOK***"]. *)
Example search_example :
  search start_pattern
    (str_of "xx***START  OF" ++ [10%N] ++ str_of "THIS project Gutenberg"
     ++ [9%N] ++ str_of "EBOOK***")
  = Some (2, 46)%nat.
Proof. vm_compute. reflexivity. Qed.

(** U+017F and U+212A match [S] and [K] under [re.IGNORECASE]. *)
Example search_ignorecase_example :
  search start_pattern
    (str_of "*** " ++ [383%N] ++ str_of "TART OF THE PROJECT GUTENBERG EBOO"
     ++ [8490%N] ++ str_of " ***")
  = Some (0, 44)%nat.
Proof. vm_compute. reflexivity. Qed.

Example sub_contents_example :
  sub contents_heading []
    (str_of "Contents I. A; CONTENTS  i. B; contents II.")
  = str_of " A;  B; contents II.".
Proof. vm_compute. reflexivity. Qed.

Example clean_gutenberg_example :
  clean_gutenberg
    (str_of "*** start of this project gutenberg ebook Holmes ***"
     ++ [10; 10]%N ++ str_of "CONTENTS" ++ [10; 10]%N
     ++ str_of " I. Mr. Sherlock_Holmes_" ++ [9; 10]%N
     ++ str_of "*** END of the Project Gutenberg EBook Holmes ***")
  = Returned (str_of " Mr. SherlockHolmes").
Proof. vm_compute. reflexivity. Qed.

Example scaled_int_example :
  Float.scaled_int Float.lit_0_1 1000 = Returned 100
  /\ Float.scaled_int Float.lit_0_9 1000 = Returned 900
  /\ Float.scaled_int Float.lit_0_1 (2 ^ 63 - 1) = Returned 922337203685477632.
Proof. repeat split; vm_compute; reflexivity. Qed.

Example chunk_text_example :
  chunk_text 8 (str_of "a b c d e f g") 3 2 1
  = Returned [str_of "a b c"; str_of "c d e"; str_of "e f g"].
Proof. vm_compute. reflexivity. Qed.

End Examples.

(** ** Words, slices and the round trip of [join] and [split] *)

Module PyFacts.

(** A word as [split] produces it: non-empty and free of whitespace. *)
Definition space_free (w : str) : Prop := Forall (fun c => is_space c = false) w.
Definition is_word (w : str) : Prop := w <> [] /\ space_free w.

Lemma space_free_app (u v : str) :
  space_free u -> space_free v -> space_free (u ++ v).
Proof. intros Hu Hv. apply Forall_app. split; assumption. Qed.

Lemma split_from_words (s w : str) :
  space_free w -> Forall is_word (split_from w s).
Proof.
  revert w. induction s as [|c s IH]; intros w Hw; simpl.
  - destruct w; constructor; [|constructor]. split; [discriminate|assumption].
  - destruct (is_space c) eqn:Hc.
    + destruct w.
      * apply IH. constructor.
      * constructor.
        -- split; [discriminate|assumption].
        -- apply IH. constructor.
    + apply IH. apply space_free_app; [assumption|].
      constructor; [assumption|constructor].
Qed.

Lemma split_words (s : str) : Forall is_word (split s).
Proof. apply split_from_words. constructor. Qed.

Lemma split_from_run (u w rest : str) :
  space_free u -> split_from w (u ++ rest) = split_from (w ++ u) rest.
Proof.
  revert w. induction u as [|c u IH]; intros w Hu; simpl.
  - now rewrite app_nil_r.
  - inversion Hu as [|? ? Hc Hu']; subst. rewrite Hc.
    rewrite IH by assumption. now rewrite <- app_assoc.
Qed.

Lemma split_join (ws : list str) :
  Forall is_word ws -> split (join (str_of " ") ws) = ws.
Proof.
  unfold split. induction ws as [|w ws IH]; intros H; [reflexivity|].
  inversion H as [|? ? [Hne Hsf] Hws]; subst.
  destruct ws as [|w' ws].
  - simpl. rewrite <- (app_nil_r w) at 1.
    rewrite split_from_run by assumption. simpl.
    destruct w; [contradiction|reflexivity].
  - change (join (str_of " ") (w :: w' :: ws))
      with (w ++ str_of " " ++ join (str_of " ") (w' :: ws)).
    rewrite split_from_run by assumption. simpl.
    destruct w; [contradiction|]. simpl.
    f_equal. apply IH. assumption.
Qed.

Lemma Forall_firstn {A : Type} (P : A -> Prop) (n : nat) (l : list A) :
  Forall P l -> Forall P (firstn n l).
Proof.
  revert l. induction n as [|n IH]; intros l H; simpl; [constructor|].
  destruct H; constructor; auto.
Qed.

Lemma Forall_skipn {A : Type} (P : A -> Prop) (n : nat) (l : list A) :
  Forall P l -> Forall P (skipn n l).
Proof.
  revert l. induction n as [|n IH]; intros l H; simpl; [assumption|].
  destruct H; [constructor|auto].
Qed.

(** Slices with non-negative bounds. *)
Lemma len_nonneg {A : Type} (l : list A) : 0 <= len l.
Proof. unfold len. lia. Qed.

Lemma slice_nonneg {A : Type} (l : list A) (a b : Z) :
  0 <= a -> 0 <= b ->
  slice l a b = firstn (Z.to_nat (b - a)) (skipn (Z.to_nat a) l).
Proof.
  intros Ha Hb. unfold slice, clamp_index.
  destruct (a <? 0) eqn:Ea; [lia|]. destruct (b <? 0) eqn:Eb; [lia|].
  pose proof (len_nonneg l) as Hn. unfold len in *.
  destruct (Z_le_gt_dec a (Z.of_nat (length l))) as [Hal|Hal].
  - rewrite (Z.min_l a) by assumption.
    destruct (Z_le_gt_dec b (Z.of_nat (length l))) as [Hbl|Hbl].
    + rewrite (Z.min_l b) by assumption. reflexivity.
    + rewrite (Z.min_r b) by lia.
      rewrite !firstn_all2; try reflexivity; rewrite length_skipn; lia.
  - rewrite (Z.min_r a) by lia.
    rewrite !skipn_all2 by lia. now rewrite !firstn_nil.
Qed.

Lemma slice_length_le {A : Type} (l : list A) (a b : Z) :
  len (slice l a b) <= len l.
Proof.
  unfold slice, len. rewrite length_firstn, length_skipn. lia.
Qed.

Lemma slice_Forall {A : Type} (P : A -> Prop) (l : list A) (a b : Z) :
  Forall P l -> Forall P (slice l a b).
Proof.
  intros H. unfold slice. apply Forall_firstn, Forall_skipn, H.
Qed.

Lemma slice_all {A : Type} (l : list A) (b : Z) :
  len l <= b -> slice l 0 b = l.
Proof.
  intros H. pose proof (len_nonneg l). rewrite slice_nonneg by lia.
  simpl. apply firstn_all2. unfold len in *. lia.
Qed.

Lemma slice_empty {A : Type} (l : list A) (a b : Z) :
  0 <= a -> 0 <= b -> b <= a -> slice l a b = [].
Proof.
  intros Ha Hb Hab. rewrite slice_nonneg by assumption.
  replace (Z.to_nat (b - a)) with O by lia. reflexivity.
Qed.

Lemma slice_window_length {A : Type} (l : list A) (s m : Z) :
  0 <= s -> 0 <= m -> len (slice l s (s + m)) = Z.min m (Z.max 0 (len l - s)).
Proof.
  intros Hs Hm. rewrite slice_nonneg by lia. unfold len.
  rewrite length_firstn, length_skipn. lia.
Qed.

End PyFacts.

(** ** The windows of [chunk_text] *)

Module ChunkFacts.

Import Preprocess PyFacts.

(** The last [n] elements of a list. *)
Definition last_words {A : Type} (n : nat) (l : list A) : list A :=
  skipn (length l - n) l.

Lemma Sorted_consecutive {A : Type} (R : A -> A -> Prop) (l : list A) :
  Sorted R l ->
  forall i a b, nth_error l i = Some a -> nth_error l (S i) = Some b -> R a b.
Proof.
  induction 1 as [|x l Hs IH Hhd]; intros i a b Ha Hb.
  - destruct i; discriminate.
  - destruct i as [|i].
    + simpl in Ha, Hb. injection Ha as ->.
      destruct Hhd as [|y l' Hxy]; [discriminate|].
      simpl in Hb. now injection Hb as ->.
    + simpl in Ha. apply (IH i); assumption.
Qed.

Section Windows.

Variable words : list str.
Variables max_words min_words overlap : Z.

(** The window that starts at [start], and the advance of the loop. *)
Definition window (start : Z) : list str := slice words start (start + max_words).
Definition step : Z := max_words - overlap.

(** The windows that at most [k] iterations emit from [start] on. *)
Fixpoint emitted (k : nat) (start : Z) : list (list str) :=
  match k with
  | O => []
  | S k' =>
      if start <? len words then
        (if min_words <=? len (window start) then [window start] else [])
        ++ emitted k' (start + step)
      else []
  end.

(** With an advance of at least one word the loop ends, and it returns
    the emitted windows, joined, after what it was given. *)
Lemma chunk_loop_emitted (k : nat) :
  forall (fuel : nat) (start : Z) (chunks : list str),
    1 <= step -> len words - start <= Z.of_nat k -> (k < fuel)%nat ->
    chunk_loop fuel words max_words min_words overlap start chunks
    = Returned (chunks ++ map (join (str_of " ")) (emitted k start)).
Proof.
  induction k as [|k IH]; intros fuel start chunks Hstep Hk Hfuel;
    (destruct fuel as [|fuel]; [lia|]); simpl.
  - destruct (start <? len words) eqn:E; [apply Z.ltb_lt in E; lia|].
    now rewrite app_nil_r.
  - destruct (start <? len words) eqn:E; [|now rewrite app_nil_r].
    fold (window start). fold step.
    rewrite IH by lia.
    destruct (min_words <=? len (window start)); simpl.
    + now rewrite <- app_assoc.
    + reflexivity.
Qed.

(** Without such an advance, and with a word to start from, it never
    ends. *)
Lemma chunk_loop_diverges (fuel : nat) :
  forall (start : Z) (chunks : list str),
    step <= 0 -> start < len words ->
    chunk_loop fuel words max_words min_words overlap start chunks = OutOfFuel.
Proof.
  induction fuel as [|fuel IH]; intros start chunks Hstep Hstart; simpl.
  - reflexivity.
  - destruct (start <? len words) eqn:E; [|apply Z.ltb_ge in E; lia].
    apply IH; [assumption|]. unfold step in Hstep. lia.
Qed.

(** No window is emitted when none of those still to come has
    [min_words] words. *)
Lemma emitted_none (k : nat) :
  forall start : Z,
    0 <= step ->
    (forall s, start <= s -> s < len words -> len (window s) < min_words) ->
    emitted k start = [].
Proof.
  induction k as [|k IH]; intros start Hstep Hshort; simpl; [reflexivity|].
  destruct (start <? len words) eqn:E; [|reflexivity].
  apply Z.ltb_lt in E.
  destruct (min_words <=? len (window start)) eqn:Em.
  - apply Z.leb_le in Em. specialize (Hshort start). lia.
  - simpl. apply IH; [assumption|]. intros s Hs. apply Hshort. lia.
Qed.

Lemma window_length (s : Z) :
  0 <= s -> 0 <= max_words ->
  len (window s) = Z.min max_words (Z.max 0 (len words - s)).
Proof. intros. unfold window. now apply slice_window_length. Qed.

(** The emitted windows begin with the window at [start], when there are
    any: a window that is dropped is followed by dropped windows only. *)
Lemma emitted_head (k : nat) (start : Z) :
  0 <= start -> 0 <= max_words -> 1 <= step ->
  emitted k start = [] \/ exists rest, emitted k start = window start :: rest.
Proof.
  intros Hs Hm Hstep. destruct k as [|k]; simpl; [now left|].
  destruct (start <? len words) eqn:E; [|now left]. apply Z.ltb_lt in E.
  destruct (min_words <=? len (window start)) eqn:Em.
  - right. eexists. reflexivity.
  - left. simpl. apply Z.leb_gt in Em. apply emitted_none; [lia|].
    intros s Hss Hsn. rewrite window_length in * by lia. lia.
Qed.

Lemma emitted_bounds (k : nat) :
  forall start : Z,
    0 <= start -> 0 <= max_words -> 1 <= step ->
    Forall (fun w => min_words <= len w <= max_words) (emitted k start).
Proof.
  induction k as [|k IH]; intros start Hs Hm Hstep; simpl; [constructor|].
  destruct (start <? len words) eqn:E; [|constructor].
  apply Forall_app. split; [|apply IH; lia].
  destruct (min_words <=? len (window start)) eqn:Em; [|constructor].
  apply Z.leb_le in Em. constructor; [|constructor].
  rewrite window_length in * by lia. lia.
Qed.

Lemma emitted_slices (k : nat) :
  forall start : Z,
    Forall (fun w => exists s, w = window s) (emitted k start).
Proof.
  induction k as [|k IH]; intros start; simpl; [constructor|].
  destruct (start <? len words); [|constructor].
  apply Forall_app. split; [|apply IH].
  destruct (min_words <=? len (window start)); constructor; [|constructor].
  now exists start.
Qed.

(** Consecutive windows share their overlap. *)
Definition shares_overlap (w w' : list str) : Prop :=
  firstn (Z.to_nat overlap) w' = skipn (Z.to_nat step) w.

Lemma window_overlap (s : Z) :
  0 <= s -> 0 <= overlap -> 1 <= step ->
  shares_overlap (window s) (window (s + step)).
Proof.
  intros Hs Ho Hstep. unfold shares_overlap, window, step in *.
  rewrite !slice_nonneg by lia.
  rewrite firstn_firstn, skipn_firstn_comm, skipn_skipn.
  f_equal; [lia|]. f_equal. lia.
Qed.

Lemma emitted_chain (k : nat) :
  forall start : Z,
    0 <= start -> 0 <= overlap -> 1 <= step ->
    Sorted shares_overlap (emitted k start).
Proof.
  induction k as [|k IH]; intros start Hs Ho Hstep; simpl; [constructor|].
  destruct (start <? len words) eqn:E; [|constructor].
  assert (Hrest : Sorted shares_overlap (emitted k (start + step)))
    by (apply IH; lia).
  destruct (min_words <=? len (window start)); simpl; [|assumption].
  constructor; [assumption|].
  destruct (emitted_head k (start + step)) as [Hnil|[rest Hcons]];
    try (unfold step in *; lia).
  - rewrite Hnil. constructor.
  - rewrite Hcons. constructor. now apply window_overlap.
Qed.

End Windows.

End ChunkFacts.

(** ** [chunk_text] *)

Module ChunkSpec.

Import Preprocess PyFacts ChunkFacts.

Lemma emitted_words (words : list str) (max_words min_words overlap : Z)
  (k : nat) (start : Z) :
  Forall is_word words ->
  Forall (Forall is_word) (emitted words max_words min_words overlap k start).
Proof.
  intros Hw.
  eapply Forall_impl; [|apply emitted_slices].
  intros w [s ->]. apply slice_Forall, Hw.
Qed.


(** The chunks of a text under an advance of at least one word. *)
Lemma chunk_text_emitted (text : str) (max_words min_words overlap : Z)
  (fuel : nat) :
  overlap < max_words -> (length (split text) < fuel)%nat ->
  chunk_text fuel text max_words min_words overlap
  = Returned (map (join (str_of " "))
                (emitted (split text) max_words min_words overlap
                   (length (split text)) 0)).
Proof.
  intros Ho Hfuel. unfold chunk_text.
  rewrite (chunk_loop_emitted (split text) max_words min_words overlap
             (length (split text))); try assumption.
  - reflexivity.
  - unfold step. lia.
  - unfold len. lia.
Qed.

(** C1 (as amended). With [0 <= overlap < max_words] and enough fuel,
    [chunk_text] returns; every chunk has between [min_words] and
    [max_words] words; and of two consecutive chunks the second begins
    with the words that the first has after its first
    [max_words - overlap] words. Those are the last [overlap] words of the
    first chunk when it has [max_words] words, which is the case of every
    such pair when [overlap <= min_words]. *)
Theorem chunk_text_windows (text : str) (max_words min_words overlap : Z)
  (fuel : nat) :
  0 <= overlap < max_words -> (length (split text) < fuel)%nat ->
  exists chunks,
    chunk_text fuel text max_words min_words overlap = Returned chunks
    /\ (forall c, In c chunks -> min_words <= len (split c) <= max_words)
    /\ (forall i c c',
          nth_error chunks i = Some c -> nth_error chunks (S i) = Some c' ->
          firstn (Z.to_nat overlap) (split c')
          = skipn (Z.to_nat (max_words - overlap)) (split c)
          /\ (len (split c) = max_words \/ overlap <= min_words ->
              firstn (Z.to_nat overlap) (split c')
              = last_words (Z.to_nat overlap) (split c))).
Proof.
  intros Ho Hfuel.
  set (E := emitted (split text) max_words min_words overlap
              (length (split text)) 0).
  assert (Hwords : Forall (Forall is_word) E)
    by (apply emitted_words, split_words).
  assert (Hbounds : Forall (fun w => min_words <= len w <= max_words) E)
    by (apply emitted_bounds; unfold step; lia).
  assert (Hchain : Sorted (shares_overlap max_words overlap) E)
    by (apply emitted_chain; unfold step; lia).
  exists (map (join (str_of " ")) E). split; [|split].
  - apply chunk_text_emitted; lia.
  - intros c Hc. apply in_map_iff in Hc as [w [<- Hw]].
    rewrite Forall_forall in Hwords, Hbounds.
    rewrite split_join by auto. auto.
  - intros i c c' Hc Hc'.
    rewrite nth_error_map in Hc, Hc'.
    destruct (nth_error E i) as [w|] eqn:Ew; [|discriminate].
    destruct (nth_error E (S i)) as [w'|] eqn:Ew'; [|discriminate].
    injection Hc as <-. injection Hc' as <-.
    rewrite Forall_forall in Hwords, Hbounds.
    pose proof (nth_error_In _ _ Ew) as Hin.
    pose proof (nth_error_In _ _ Ew') as Hin'.
    rewrite !split_join by auto.
    pose proof (Sorted_consecutive _ _ Hchain i w w' Ew Ew') as Hshare.
    unfold shares_overlap, step in Hshare.
    split; [exact Hshare|].
    intros Hfull. rewrite Hshare. unfold last_words.
    assert (Hlen : length (firstn (Z.to_nat overlap) w')
                   = length (skipn (Z.to_nat (max_words - overlap)) w))
      by now rewrite Hshare.
    rewrite length_firstn, length_skipn in Hlen.
    pose proof (Hbounds w Hin) as Hb. pose proof (Hbounds w' Hin') as Hb'.
    unfold len in *.
    destruct (Z.eq_dec overlap 0) as [->|Hpos].
    + simpl. rewrite Z.sub_0_r, Nat.sub_0_r.
      rewrite !skipn_all2; [reflexivity| |]; lia.
    + f_equal. lia.
Qed.

Lemma chunk_text_windows_witness :
  (0 <= 1 < 4) /\ (length (split (str_of "a b c d e f g")) < 8)%nat
  /\ exists chunks,
       chunk_text 8 (str_of "a b c d e f g") 4 2 1 = Returned chunks
       /\ (forall c, In c chunks -> 2 <= len (split c) <= 4)
       /\ (forall i c c',
             nth_error chunks i = Some c -> nth_error chunks (S i) = Some c' ->
             firstn (Z.to_nat 1) (split c') = skipn (Z.to_nat (4 - 1)) (split c)
             /\ (len (split c) = 4 \/ 1 <= 2 ->
                 firstn (Z.to_nat 1) (split c')
                 = last_words (Z.to_nat 1) (split c))).
Proof.
  assert (H1 : 0 <= 1 < 4) by lia.
  assert (H2 : (length (split (str_of "a b c d e f g")) < 8)%nat)
    by (vm_compute; lia).
  split; [exact H1|]. split; [exact H2|].
  exact (chunk_text_windows (str_of "a b c d e f g") 4 2 1 8 H1 H2).
Defined.

(** C1 (as stated) fails: with [max_words = 5], [min_words = 1] and
    [overlap = 3] the six words of "a b c d e f" give three chunks, and the
    third does not begin with the last three words of the second. *)
Lemma chunk_text_short_tail_overlap :
  chunk_text 7 (str_of "a b c d e f") 5 1 3
  = Returned [str_of "a b c d e"; str_of "c d e f"; str_of "e f"]
  /\ firstn 3 (split (str_of "e f")) = [str_of "e"; str_of "f"]
  /\ last_words 3 (split (str_of "c d e f"))
     = [str_of "d"; str_of "e"; str_of "f"].
Proof. vm_compute. repeat split. Qed.

(** C2 (as amended). [chunk_text] validates nothing and raises nothing:
    with [overlap >= max_words] it returns the empty list for a text
    without words, and for a text with a word its loop has no end,
    whatever the fuel. *)
Theorem chunk_text_no_validation (text : str) (max_words min_words overlap : Z) :
  max_words <= overlap ->
  (split text = [] ->
   forall fuel, chunk_text (S fuel) text max_words min_words overlap = Returned [])
  /\ (split text <> [] ->
      forall fuel, chunk_text fuel text max_words min_words overlap = OutOfFuel).
Proof.
  intros Ho. split.
  - intros Hnil fuel. unfold chunk_text. rewrite Hnil. reflexivity.
  - intros Hne fuel. unfold chunk_text. apply chunk_loop_diverges.
    + unfold step. lia.
    + destruct (split text); [contradiction|]. unfold len. simpl. lia.
Qed.

Lemma chunk_text_no_validation_witness :
  20 <= 20
  /\ (split (str_of "a scandal") = [] ->
      forall fuel,
        chunk_text (S fuel) (str_of "a scandal") 20 30 20 = Returned [])
  /\ (split (str_of "a scandal") <> [] ->
      forall fuel, chunk_text fuel (str_of "a scandal") 20 30 20 = OutOfFuel).
Proof.
  assert (H : 20 <= 20) by lia.
  split; [exact H|].
  exact (chunk_text_no_validation (str_of "a scandal") 20 30 20 H).
Defined.

(** C2 (as stated) fails: with [overlap = max_words] a text without words
    is chunked without any error, and the loop on a one-word text is
    still running after a thousand evaluations of its condition. *)
Lemma chunk_text_overlap_not_rejected :
  chunk_text 1 (str_of "") 5 1 5 = Returned []
  /\ chunk_text 1000 (str_of "a") 5 1 5 = OutOfFuel.
Proof. split; vm_compute; reflexivity. Qed.

(** C4 (as amended). With [overlap < max_words] and enough fuel: a text
    without words, or with fewer than [min_words] words, gives no chunk; a
    text of [w >= 1] words with [min_words <= w <= max_words] gives a first
    chunk that holds all its words, and no other chunk when
    [w - (max_words - overlap) < min_words], which holds whenever
    [overlap < min_words]. *)
Theorem chunk_text_edge_cases (text : str) (max_words min_words overlap : Z)
  (fuel : nat) :
  overlap < max_words -> (length (split text) < fuel)%nat ->
  let w := len (split text) in
  (w = 0 \/ w < min_words ->
   chunk_text fuel text max_words min_words overlap = Returned [])
  /\ (1 <= w -> min_words <= w <= max_words ->
      exists rest,
        chunk_text fuel text max_words min_words overlap
        = Returned (join (str_of " ") (split text) :: rest)
        /\ split (join (str_of " ") (split text)) = split text
        /\ (w - (max_words - overlap) < min_words \/ overlap < min_words ->
            rest = [])).
Proof.
  intros Ho Hfuel w. rewrite chunk_text_emitted by assumption.
  split.
  - intros Hw. rewrite emitted_none; [reflexivity|unfold step; lia|].
    intros s Hs0 Hs. destruct Hw as [Hw|Hw].
    + subst w. lia.
    + pose proof (slice_length_le (split text) s (s + max_words)).
      unfold window. subst w. lia.
  - intros Hw1 Hw. subst w.
    destruct (length (split text)) as [|k] eqn:Hlen;
      [unfold len in Hw1; rewrite Hlen in Hw1; simpl in Hw1; lia|].
    simpl.
    assert (Hw0 : window (split text) max_words 0 = split text)
      by (unfold window; apply slice_all; lia).
    rewrite Hw0.
    destruct (0 <? len (split text)) eqn:E0; [|apply Z.ltb_ge in E0; lia].
    destruct (min_words <=? len (split text)) eqn:Em; [|apply Z.leb_gt in Em; lia].
    simpl. eexists. split; [reflexivity|]. split.
    + apply split_join, split_words.
    + intros Hone. rewrite emitted_none; [reflexivity|unfold step; lia|].
      intros s Hs Hsn. unfold step in Hs.
      rewrite window_length by lia. lia.
Qed.

Lemma chunk_text_edge_cases_witness :
  20 < 200 /\ (length (split (str_of "to be or not")) < 5)%nat
  /\ let w := len (split (str_of "to be or not")) in
     (w = 0 \/ w < 3 ->
      chunk_text 5 (str_of "to be or not") 200 3 20 = Returned [])
     /\ (1 <= w -> 3 <= w <= 200 ->
         exists rest,
           chunk_text 5 (str_of "to be or not") 200 3 20
           = Returned (join (str_of " ") (split (str_of "to be or not")) :: rest)
           /\ split (join (str_of " ") (split (str_of "to be or not")))
              = split (str_of "to be or not")
           /\ (w - (200 - 20) < 3 \/ 20 < 3 -> rest = [])).
Proof.
  assert (H1 : 20 < 200) by lia.
  assert (H2 : (length (split (str_of "to be or not")) < 5)%nat)
    by (vm_compute; lia).
  split; [exact H1|]. split; [exact H2|].
  exact (chunk_text_edge_cases (str_of "to be or not") 200 3 20 5 H1 H2).
Defined.

(** C4 (as stated) fails: with [max_words = 5], [min_words = 1] and
    [overlap = 3] a text of four words gives two chunks. *)
Lemma chunk_text_two_chunks_within_max :
  len (split (str_of "a b c d")) = 4
  /\ chunk_text 5 (str_of "a b c d") 5 1 3
     = Returned [str_of "a b c d"; str_of "c d"].
Proof. split; vm_compute; reflexivity. Qed.

End ChunkSpec.

(** ** [basic_stats] and [detect_duplicates] *)

Module AuditSpec.

Import OverlapCheck.

Definition str_dec : forall a b : str, {a = b} + {a <> b} := list_eq_dec N.eq_dec.

Lemma str_eqb_eq (a b : str) : str_eqb a b = true <-> a = b.
Proof.
  revert b. induction a as [|x a IH]; intros [|y b]; simpl;
    try (split; [discriminate|discriminate]); [tauto|].
  rewrite andb_true_iff, N.eqb_eq, IH. split.
  - now intros [-> ->].
  - intros H. injection H as -> ->. tauto.
Qed.

Lemma str_eqb_refl (a : str) : str_eqb a a = true.
Proof. now apply str_eqb_eq. Qed.

Lemma str_eqb_neq (a b : str) : str_eqb a b = false <-> a <> b.
Proof.
  rewrite <- str_eqb_eq. destruct (str_eqb a b); split; congruence.
Qed.

(** The count that a counter holds for a text, zero when it has none. *)
Fixpoint counter_get (c : list (str * Z)) (t : str) : Z :=
  match c with
  | [] => 0
  | (k, n) :: c' => if str_eqb k t then n else counter_get c' t
  end.

Lemma counter_get_add (t t' : str) (c : list (str * Z)) :
  counter_get (counter_add t c) t'
  = if str_eqb t t' then counter_get c t' + 1 else counter_get c t'.
Proof.
  induction c as [|[k n] c IH]; simpl.
  - destruct (str_eqb t t'); reflexivity.
  - destruct (str_eqb k t) eqn:Ekt; simpl.
    + apply str_eqb_eq in Ekt. subst k.
      destruct (str_eqb t t'); reflexivity.
    + destruct (str_eqb k t') eqn:Ekt'; [|exact IH].
      destruct (str_eqb t t') eqn:Ett'; [|reflexivity].
      apply str_eqb_eq in Ekt', Ett'. subst.
      now rewrite str_eqb_refl in Ekt.
Qed.

Lemma counter_keys_add (t t' : str) (c : list (str * Z)) :
  In t' (map fst (counter_add t c)) <-> t' = t \/ In t' (map fst c).
Proof.
  induction c as [|[k n] c IH]; simpl.
  - split; [intros [H|[]]; auto|intros [H|[]]; auto].
  - destruct (str_eqb k t) eqn:Ekt; simpl.
    + apply str_eqb_eq in Ekt. subst k. split; [tauto|].
      intros [->|H]; tauto.
    + rewrite IH. tauto.
Qed.

Lemma counter_nodup_add (t : str) (c : list (str * Z)) :
  NoDup (map fst c) -> NoDup (map fst (counter_add t c)).
Proof.
  induction c as [|[k n] c IH]; simpl; intros H.
  - constructor; [intros []|constructor].
  - inversion H as [|? ? Hk Hc]; subst.
    destruct (str_eqb k t) eqn:Ekt; simpl.
    + constructor; assumption.
    + constructor; [|auto].
      rewrite counter_keys_add. intros [->|Hin]; [|contradiction].
      now rewrite str_eqb_refl in Ekt.
Qed.

Lemma counter_in_get (c : list (str * Z)) (t : str) (n : Z) :
  NoDup (map fst c) ->
  (In (t, n) c <-> In t (map fst c) /\ counter_get c t = n).
Proof.
  induction c as [|[k m] c IH]; simpl; intros H; [tauto|].
  inversion H as [|? ? Hk Hc]; subst. specialize (IH Hc).
  destruct (str_eqb k t) eqn:Ekt.
  - apply str_eqb_eq in Ekt. subst k. split.
    + intros [Heq|Hin]; [injection Heq as ->; tauto|].
      exfalso. apply Hk. apply (in_map fst) in Hin. exact Hin.
    + intros [_ ->]. now left.
  - apply str_eqb_neq in Ekt. split.
    + intros [Heq|Hin]; [injection Heq as -> _; contradiction|].
      apply IH in Hin. tauto.
    + intros [[Heq|Hin] Hg]; [contradiction|]. right. apply IH. tauto.
Qed.

(** What [Counter] holds after the texts [seen]. *)
Definition counts (c : list (str * Z)) (seen : list str) : Prop :=
  NoDup (map fst c)
  /\ (forall t, In t (map fst c) <-> In t seen)
  /\ (forall t, counter_get c t = Z.of_nat (count_occ str_dec seen t)).

Lemma counts_fold (texts : list str) :
  forall c seen,
    counts c seen ->
    counts (fold_left (fun c t => counter_add t c) texts c) (seen ++ texts).
Proof.
  induction texts as [|t texts IH]; intros c seen Hc; simpl.
  - now rewrite app_nil_r.
  - replace (seen ++ t :: texts) with ((seen ++ [t]) ++ texts)
      by now rewrite <- app_assoc.
    apply IH. destruct Hc as (Hnd & Hkeys & Hget). split; [|split].
    + now apply counter_nodup_add.
    + intros t'. rewrite counter_keys_add, in_app_iff, Hkeys. simpl.
      split; [intros [->|H]; auto|intros [H|[->|[]]]; auto].
    + intros t'. rewrite counter_get_add, count_occ_app, Hget. simpl.
      destruct (str_dec t t') as [->|Hne].
      * rewrite str_eqb_refl. lia.
      * apply str_eqb_neq in Hne. rewrite Hne. lia.
Qed.

Lemma Counter_counts (texts : list str) : counts (Counter texts) texts.
Proof.
  apply (counts_fold texts [] []). repeat split; simpl; try tauto.
  constructor.
Qed.


(** C3 (as amended). On a chunk set without chunks [basic_stats] raises
    [ZeroDivisionError], from the division of the mean; on any other
    chunk set it does not. *)
Theorem basic_stats_zero_division (chunks : list (str * str)) :
  basic_stats chunks = Raised ZeroDivisionError <-> chunks = [].
Proof.
  split.
  - intros H. destruct chunks as [|c chunks]; [reflexivity|exfalso].
    unfold basic_stats, Float.int_truediv in H.
    assert (Hlen : (len (c :: chunks) =? 0) = false)
      by (apply Z.eqb_neq; unfold len; simpl; lia).
    rewrite Hlen in H.
    match type of H with
    | context [Float.round_ne ?m ?e] => destruct (Float.round_ne m e)
    end; simpl in H; discriminate.
  - intros ->. reflexivity.
Qed.

(** C3 (as stated) fails: the statistics pass over no chunk ends in the
    division-by-zero error of the mean. *)
Lemma basic_stats_empty_raises_zero_division :
  basic_stats [] = Raised ZeroDivisionError.
Proof. reflexivity. Qed.



End AuditSpec.

(** ** Binary64: range *)

Module FloatFacts.

Import Float.

Lemma bit_length_nonneg (m : Z) : 0 <= bit_length m.
Proof.
  unfold bit_length. destruct (m <=? 0); [lia|].
  pose proof (Z.log2_nonneg m). lia.
Qed.

Lemma bit_length_succ (q : Z) : 0 <= q -> bit_length (q + 1) <= bit_length q + 1.
Proof.
  intros Hq. unfold bit_length.
  destruct (q + 1 <=? 0) eqn:E1; [apply Z.leb_le in E1; lia|].
  destruct (q <=? 0) eqn:E0.
  - apply Z.leb_le in E0. replace q with 0 by lia. simpl. lia.
  - pose proof (Z.log2_succ_le q). unfold Z.succ in *. lia.
Qed.

Lemma bit_length_div_pow2 (m sh : Z) :
  0 <= m -> 0 <= sh -> bit_length (m / 2 ^ sh) <= Z.max 0 (bit_length m - sh).
Proof.
  intros Hm Hsh. unfold bit_length at 1.
  destruct (m / 2 ^ sh <=? 0) eqn:E; [lia|]. apply Z.leb_gt in E.
  assert (Hpos : 0 < m).
  { destruct (Z.eq_dec m 0) as [->|]; [|lia]. rewrite Z.div_0_l in E; lia. }
  rewrite <- Z.shiftr_div_pow2 by assumption.
  rewrite Z.log2_shiftr by assumption.
  unfold bit_length. destruct (m <=? 0) eqn:E'; [apply Z.leb_le in E'; lia|].
  rewrite <- Z.shiftr_div_pow2 in E by assumption.
  assert (Hlog : sh <= Z.log2 m).
  { destruct (Z_lt_le_dec (Z.log2 m) sh) as [Hlt|]; [|assumption].
    rewrite Z.shiftr_eq_0 in E; lia. }
  lia.
Qed.

Lemma bit_length_mul (a b : Z) :
  0 <= a -> 0 <= b -> bit_length (a * b) <= bit_length a + bit_length b.
Proof.
  intros Ha Hb. unfold bit_length.
  destruct (a <=? 0) eqn:Ea.
  - apply Z.leb_le in Ea. replace a with 0 by lia. simpl.
    destruct (b <=? 0); pose proof (Z.log2_nonneg b); lia.
  - destruct (b <=? 0) eqn:Eb.
    + apply Z.leb_le in Eb. replace b with 0 by lia.
      rewrite Z.mul_0_r. simpl. pose proof (Z.log2_nonneg a). lia.
    + apply Z.leb_gt in Ea, Eb.
      destruct (a * b <=? 0) eqn:Eab; [apply Z.leb_le in Eab; nia|].
      pose proof (Z.log2_mul_above a b Ha Hb). lia.
Qed.

Lemma bit_length_below (n k : Z) : 0 <= k -> n < 2 ^ k -> bit_length n <= k.
Proof.
  intros Hk Hn. unfold bit_length.
  destruct (n <=? 0) eqn:E; [lia|]. apply Z.leb_gt in E.
  apply Z.log2_lt_pow2 in Hn; lia.
Qed.

(** Rounding a value below [2^emax / 2] gives a finite double, of a size
    that exceeds that of the value by one bit at most. *)
Lemma round_ne_finite (m e : Z) :
  0 <= m -> bit_length m + e < emax ->
  exists q e',
    round_ne m e = Finite q e' /\ 0 <= q
    /\ bit_length q + e' <= Z.max (bit_length m + e) emin + 1.
Proof.
  intros Hm Hsize. unfold round_ne.
  set (e' := Z.max (bit_length m + e - prec) emin).
  pose proof (bit_length_nonneg m) as Hbl.
  destruct (e' <=? e) eqn:Ee.
  - apply Z.leb_le in Ee. rewrite (Z.max_l e e') by lia.
    destruct (emax <? bit_length m + e) eqn:Eo; [apply Z.ltb_lt in Eo; lia|].
    exists m, e. repeat split; lia.
  - apply Z.leb_gt in Ee. rewrite (Z.max_r e e') by lia.
    set (sh := e' - e). set (q := m / 2 ^ sh).
    assert (Hq : 0 <= q) by (apply Z.div_pos; [lia|apply Z.pow_pos_nonneg; lia]).
    assert (Hblq : bit_length q <= Z.max 0 (bit_length m - sh))
      by (apply bit_length_div_pow2; lia).
    pose proof (bit_length_succ q Hq) as Hsucc.
    match goal with
    | |- context [if emax <? bit_length ?q' + e' then _ else _] =>
        set (q1 := q');
        assert (Hq1 : q1 = q \/ q1 = q + 1)
          by (subst q1;
              destruct (m mod 2 ^ sh <? 2 ^ (sh - 1)); [now left|];
              destruct (2 ^ (sh - 1) <? m mod 2 ^ sh); [now right|];
              destruct (Z.even q); auto)
    end.
    assert (Hb1 : bit_length q1 <= bit_length q + 1)
      by (destruct Hq1 as [->| ->]; lia).
    unfold prec, emin, emax in *. subst sh.
    destruct (1024 <? bit_length q1 + e') eqn:Eo; [apply Z.ltb_lt in Eo; lia|].
    exists q1, e'. repeat split; destruct Hq1; lia.
Qed.

(** [int(x * n)] for a finite [x] of moderate size and a length [n] that
    fits a machine word. *)
Lemma scaled_length_returns (mx ex n : Z) :
  0 <= mx -> bit_length mx + ex < 512 -> 0 <= n < 2 ^ 63 ->
  exists z, scaled_int (Finite mx ex) n = Returned z.
Proof.
  intros Hmx Hsize Hn. unfold scaled_int, mul_int, of_int.
  assert (Hbn : bit_length n <= 63) by (apply bit_length_below; lia).
  destruct (round_ne_finite n 0) as (q & e' & Hr & Hq & Hb);
    [lia|unfold emax; lia|].
  rewrite Hr. simpl.
  pose proof (bit_length_mul mx q Hmx Hq) as Hmul.
  destruct (round_ne_finite (mx * q) (ex + e')) as (q2 & e2 & Hr2 & Hq2 & Hb2);
    [nia|unfold emax, emin in *; lia|].
  rewrite Hr2. simpl. eexists. reflexivity.
Qed.

Lemma bit_length_pos (m : Z) : 0 < m -> 2 ^ (bit_length m - 1) <= m < 2 ^ bit_length m.
Proof.
  intros Hm. unfold bit_length.
  destruct (m <=? 0) eqn:E; [apply Z.leb_le in E; lia|].
  pose proof (Z.log2_spec m Hm) as H. unfold Z.succ in H.
  replace (Z.log2 m + 1 - 1) with (Z.log2 m) by lia. exact H.
Qed.

Lemma round_ne_cases (m e : Z) :
  0 < m -> emin <= bit_length m + e - prec -> bit_length m + e < emax ->
  (bit_length m <= prec -> round_ne m e = Finite m e)
  /\ (prec < bit_length m ->
      exists q1,
        round_ne m e = Finite q1 (bit_length m + e - prec)
        /\ (q1 = m / 2 ^ (bit_length m - prec)
            \/ (q1 = m / 2 ^ (bit_length m - prec) + 1
                /\ 2 ^ (bit_length m - prec - 1) <= m mod 2 ^ (bit_length m - prec)))).
Proof.
  intros Hm Hmin Hmax.
  destruct (round_ne_finite m e) as (q & e2 & Hfin & _ & _); [lia|assumption|].
  unfold round_ne in *.
  rewrite (Z.max_l (bit_length m + e - prec) emin) in * by lia.
  set (e' := bit_length m + e - prec) in *.
  split.
  - intros Hd. assert (Ee : (e' <=? e) = true) by (apply Z.leb_le; lia).
    rewrite Ee in *. rewrite (Z.max_l e e') in * by lia.
    destruct (emax <? bit_length m + e) eqn:Eo; [apply Z.ltb_lt in Eo; lia|].
    reflexivity.
  - intros Hd. assert (Ee : (e' <=? e) = false) by (apply Z.leb_gt; lia).
    rewrite Ee in *. rewrite (Z.max_r e e') in * by lia.
    replace (e' - e) with (bit_length m - prec) in * by lia.
    set (sh := bit_length m - prec) in *.
    match type of Hfin with
    | (if emax <? bit_length ?q' + e' then _ else _) = _ =>
        set (q1 := q') in *
    end.
    destruct (emax <? bit_length q1 + e'); [discriminate|].
    exists q1. split; [reflexivity|]. subst q1.
    destruct (m mod 2 ^ sh <? 2 ^ (sh - 1)) eqn:E1; [now left|].
    apply Z.ltb_ge in E1.
    destruct (2 ^ (sh - 1) <? m mod 2 ^ sh); [now right|].
    destruct (Z.even (m / 2 ^ sh)); [now left|now right].
Qed.

Lemma scaled_floor (t mc p dlt n : Z) :
  53 <= t <= 56 -> 10 * mc = p * 2 ^ t + dlt -> 0 <= dlt <= 4 -> 1 <= p <= 9 ->
  0 <= n <= 2 ^ 49 ->
  to_int (round_ne (mc * n) (- t)) = Returned (p * n / 10).
Proof.
  intros Ht Hmc Hdlt Hp Hn.
  assert (HT : 2 ^ 53 <= 2 ^ t <= 2 ^ 56)
    by (split; apply Z.pow_le_mono_r; lia).
  set (T := 2 ^ t) in *.
  assert (Hmcpos : 0 < mc) by nia.
  assert (Hmcub : mc < 2 ^ 56) by nia.
  pose proof (Z.div_mod (p * n) 10 ltac:(lia)) as Hdm.
  pose proof (Z.mod_pos_bound (p * n) 10 ltac:(lia)) as Hj.
  set (k := p * n / 10) in *. set (j := (p * n) mod 10) in *.
  assert (Hk : 0 <= k) by (subst k; apply Z.div_pos; nia).
  assert (H10M : 10 * (mc * n) = 10 * k * T + j * T + dlt * n) by nia.
  assert (Hdn : dlt * n <= 2 ^ 51) by nia.
  assert (I1 : k * T <= mc * n) by nia.
  assert (I2 : mc * n < (k + 1) * T) by nia.
  destruct (Z.eq_dec n 0) as [->|Hn0].
  - rewrite Z.mul_0_r in *.
    assert (k = 0) by nia. 
    unfold round_ne. change (bit_length 0) with 0.
    unfold prec, emin, emax.
    rewrite (Z.max_l (0 + - t - 53) (-1074)) by lia.
    replace (0 + - t - 53 <=? - t) with true by (symmetry; apply Z.leb_le; lia).
    change (bit_length 0) with 0.
    replace (1024 <? 0 + Z.max (- t) (0 + - t - 53)) with false
      by (symmetry; apply Z.ltb_ge; lia).
    unfold to_int. rewrite Z.max_l by lia.
    replace (0 <=? - t) with false by (symmetry; apply Z.leb_gt; lia).
    rewrite Z.div_0_l; [congruence|]. apply Z.pow_nonzero; lia.
  - set (M := mc * n) in *.
    assert (HM : 0 < M) by (subst M; nia).
    pose proof (bit_length_pos M HM) as Hd.
    set (d := bit_length M) in *.
    assert (Hd1 : 1 <= d).
    { subst d. unfold bit_length. destruct (M <=? 0) eqn:E; [apply Z.leb_le in E; lia|].
      pose proof (Z.log2_nonneg M). lia. }
    assert (Hd105 : d <= 105).
    { destruct (Z_le_gt_dec d 105) as [|Hgt]; [assumption|exfalso].
      assert (2 ^ 105 <= 2 ^ (d - 1)) by (apply Z.pow_le_mono_r; lia).
      assert (M < 2 ^ 105) by (subst M; nia). lia. }
    destruct (round_ne_cases M (- t)) as [Hexact Hround];
      [assumption|fold d; unfold emin, prec; lia|fold d; unfold emax; lia|].
    fold d in Hexact, Hround. unfold prec in *.
    destruct (Z_le_gt_dec d 53) as [Hsmall|Hbig].
    + rewrite Hexact by assumption. unfold to_int.
      replace (0 <=? - t) with false by (symmetry; apply Z.leb_gt; lia).
      rewrite Z.opp_involutive. fold T. f_equal.
      symmetry. apply (Z.div_unique M T k (M - T * k)); lia.
    + destruct Hround as (q1 & Hr & Hq1); [lia|]. rewrite Hr. unfold to_int.
      replace (0 <=? d + - t - 53) with false by (symmetry; apply Z.leb_gt; lia).
      replace (- (d + - t - 53)) with (t - (d - 53)) by lia.
      set (sh := d - 53) in *.
      assert (HAB : 2 ^ sh * 2 ^ (t - sh) = T)
        by (rewrite <- Z.pow_add_r by lia; subst T; f_equal; lia).
      assert (HAH : 2 ^ sh = 2 * 2 ^ (sh - 1))
        by (rewrite <- Z.pow_succ_r by lia; f_equal; lia).
      assert (HH : 2 ^ (sh - 1) * 2 ^ 53 = 2 ^ (d - 1))
        by (rewrite <- Z.pow_add_r by lia; f_equal; lia).
      assert (HApos : 0 < 2 ^ sh) by (apply Z.pow_pos_nonneg; lia).
      assert (HBpos : 0 < 2 ^ (t - sh)) by (apply Z.pow_pos_nonneg; lia).
      assert (HHpos : 0 < 2 ^ (sh - 1)) by (apply Z.pow_pos_nonneg; lia).
      pose proof (Z.div_mod M (2 ^ sh) ltac:(lia)) as HMdm.
      pose proof (Z.mod_pos_bound M (2 ^ sh) HApos) as Hrb.
      set (A := 2 ^ sh) in *. set (B := 2 ^ (t - sh)) in *.
      set (H := 2 ^ (sh - 1)) in *.
      set (q := M / A) in *. set (r := M mod A) in *.
      assert (Hlow : B * k <= q).
      { subst q. apply Z.div_le_lower_bound; [assumption|]. nia. }
      assert (Hup0 : q < B * (k + 1)).
      { subst q. apply Z.div_lt_upper_bound; [assumption|]. nia. }
      assert (Hup : q1 < B * (k + 1)).
      { destruct Hq1 as [->|[-> Hhalf]]; [assumption|].
        destruct (Z_lt_ge_dec (q + 1) (B * (k + 1))) as [|Hge]; [assumption|exfalso].
        assert (HMlow : T * (k + 1) - H <= M) by nia.
        assert (H53 : 10 * H * 2 ^ 53 <= 10 * M) by lia.
        assert (T * 2 ^ 49 * 7 >= 7 * 2 ^ 102) by lia.
        nia. }
      f_equal. symmetry.
      apply (Z.div_unique q1 B k (q1 - B * k)); [|lia].
      destruct Hq1 as [->|[-> _]]; lia.
Qed.

(** The offsets of the fallback, [int(0.1 * n)] and [int(0.9 * n)], are
    the tenth and the nine tenths of [n], rounded down, for every length
    up to [2^49]. *)
Lemma of_int_exact (n : Z) : 0 <= n <= 2 ^ 49 -> of_int n = Returned (Finite n 0).
Proof.
  intros Hn. unfold of_int.
  destruct (Z.eq_dec n 0) as [->|Hn0]; [reflexivity|].
  destruct (round_ne_cases n 0) as [Hexact _]; try lia.
  - assert (bit_length n <= 50) by (apply bit_length_below; lia).
    pose proof (bit_length_nonneg n). unfold emin, prec. lia.
  - assert (bit_length n <= 50) by (apply bit_length_below; lia).
    unfold emax. lia.
  - rewrite Hexact; [reflexivity|].
    assert (bit_length n <= 50) by (apply bit_length_below; lia).
    unfold prec. lia.
Qed.

Lemma tenth_of_length (n : Z) :
  0 <= n <= 2 ^ 49 ->
  scaled_int lit_0_1 n = Returned (n / 10).
Proof.
  intros Hn. unfold scaled_int, mul_int. rewrite of_int_exact by assumption.
  cbn [bind mul lit_0_1]. rewrite Z.add_0_r.
  change (-56) with (Z.opp 56).
  rewrite (scaled_floor 56 7205759403792794 1 4 n); try lia.
  now rewrite Z.mul_1_l.
Qed.

Lemma nine_tenths_of_length (n : Z) :
  0 <= n <= 2 ^ 49 ->
  scaled_int lit_0_9 n = Returned (9 * n / 10).
Proof.
  intros Hn. unfold scaled_int, mul_int. rewrite of_int_exact by assumption.
  cbn [bind mul lit_0_9]. rewrite Z.add_0_r.
  change (-53) with (Z.opp 53).
  rewrite (scaled_floor 53 8106479329266893 9 2 n); try lia.
  reflexivity.
Qed.

End FloatFacts.

(** ** Binary64: agreement with the Standard Library

    [SpecFloat] of the Standard Library specifies the operations of
    Rocq's primitive binary64 floats. On the samples below, [Float.of_int],
    [Float.mul] and [Float.int_truediv] give the values that its
    [binary_normalize], [SFmul] and [SFdiv] give. *)

Module FloatReference.

Import Float.

Definition same_value (x : spec_float) (y : double) : bool :=
  match x, y with
  | S754_zero false, Finite m _ => m =? 0
  | S754_finite false m e, Finite m' e' =>
      let e0 := Z.min e e' in
      Zpos m * 2 ^ (e - e0) =? m' * 2 ^ (e' - e0)
  | S754_infinity false, Infinity => true
  | _, _ => false
  end.

Definition reference_of_int (n : Z) : spec_float :=
  binary_normalize prec emax n 0 false.

Definition reference_of (x : double) : spec_float :=
  match x with
  | Finite m e => binary_normalize prec emax m e false
  | Infinity => S754_infinity false
  | NaN => S754_nan
  end.

Definition mul_agrees (x : double) (n : Z) : bool :=
  match of_int n with
  | Returned y =>
      same_value (reference_of_int n) y
      && same_value (SFmul prec emax (reference_of x) (reference_of_int n))
           (mul x y)
  | _ => false
  end.

Definition truediv_agrees (a b : Z) : bool :=
  match int_truediv a b with
  | Returned y =>
      same_value (SFdiv prec emax (reference_of_int a) (reference_of_int b)) y
  | _ => false
  end.

Definition upto (a : Z) (k : nat) : list Z :=
  map (fun i => a + Z.of_nat i) (seq 0 k).

Lemma mul_agrees_on_samples :
  forallb (fun n => mul_agrees lit_0_1 n && mul_agrees lit_0_9 n)
    (upto 0 1200 ++ upto (2 ^ 49 - 50) 100 ++ upto (2 ^ 53 - 50) 100
     ++ upto (2 ^ 63 - 100) 100 ++ map (fun i => 3 ^ Z.of_nat i) (seq 0 120))
  = true.
Proof. vm_compute. reflexivity. Qed.

Lemma truediv_agrees_on_samples :
  forallb (fun a => forallb (truediv_agrees a) (upto 1 40))
    (upto 0 100 ++ upto (2 ^ 52 - 20) 40)
  = true.
Proof. vm_compute. reflexivity. Qed.

End FloatReference.

(** ** The matcher on the texts of the markers *)

Module ReFacts.

Import Re PyFacts.

(** [s.find(p)], [None] when [p] does not occur in [s]. *)
Fixpoint find (p s : str) : option nat :=
  match s with
  | [] => if starts_with p [] then Some O else None
  | _ :: s' => if starts_with p s then Some O else option_map S (find p s')
  end.

Definition stars : str := str_of "***".

(** [u] spells the word [w] up to the case of its letters. *)
Definition case_variant (w : string) (u : str) : Prop :=
  Forall2 (fun p c => c = p \/ c = swapcase p) (str_of w) u.

(** [ks] matches [u] character by character. *)
Definition matches (ks : list cls) (u : str) : Prop :=
  Forall2 (fun k c => cls_match k c = true) ks u.

Definition starts_nonspace (s : str) : Prop :=
  match s with [] => True | x :: _ => is_space x = false end.

(** Neither case of any letter of [w] is whitespace. *)
Definition letters (w : string) : Prop :=
  Forall (fun p => is_space p = false /\ is_space (swapcase p) = false) (str_of w).

Lemma match_here_lit (ks : list cls) (r : regex) (s : str) :
  match_here (map One ks ++ r) s = seq_then ks (match_here r) s.
Proof.
  revert s. induction ks as [|c ks IH]; intros s; simpl; [reflexivity|].
  destruct s as [|x s]; [reflexivity|].
  destruct (cls_match c x); [|reflexivity]. now rewrite IH.
Qed.

Lemma seq_then_matches (ks : list cls) (u : str) (k : str -> option nat) (s : str) :
  matches ks u ->
  seq_then ks k (u ++ s) = option_map (Nat.add (length u)) (k s).
Proof.
  induction 1 as [|c x ks u Hcx _ IH]; simpl.
  - destruct (k s); reflexivity.
  - rewrite Hcx, IH. destruct (k s); reflexivity.
Qed.

Lemma case_variant_matches (w : string) (u : str) :
  case_variant w u -> matches (word w) u.
Proof.
  unfold case_variant, matches, word.
  generalize (str_of w). intros ps H.
  induction H as [|p c ps u Hpc _ IH]; simpl; constructor; [|assumption].
  unfold cls_match. destruct Hpc as [->| ->]; rewrite N.eqb_refl;
    [reflexivity|]. now rewrite orb_true_r.
Qed.

Lemma case_variant_length (w : string) (u : str) :
  case_variant w u -> length u = length (str_of w).
Proof. intros H. symmetry. exact (Forall2_length H). Qed.

Lemma case_variant_nonspace (w : string) (u s : str) :
  letters w -> str_of w <> [] -> case_variant w u -> starts_nonspace (u ++ s).
Proof.
  unfold letters, case_variant. intros Hl Hne Hv.
  destruct Hv as [|p c ps u' Hpc _]; [contradiction|].
  inversion Hl as [|? ? [Hp Hs] _]; subst. simpl.
  destruct Hpc as [->| ->]; assumption.
Qed.

(** One step of a match: a word, a space before the next word, the
    article. *)
Lemma match_here_word (w : string) (r : regex) (u s : str) (n : nat) :
  case_variant w u -> match_here r s = Some n ->
  match_here (lit w ++ r) (u ++ s) = Some (length u + n)%nat.
Proof.
  intros Hv Hr. unfold lit. rewrite match_here_lit.
  rewrite seq_then_matches by now apply case_variant_matches.
  now rewrite Hr.
Qed.

Lemma greedy_space_stop (k : str -> option nat) (s : str) :
  starts_nonspace s -> greedy_then Space k s = k s.
Proof.
  destruct s as [|x s]; simpl; [reflexivity|]. now intros ->.
Qed.

Lemma match_here_star_space (r : regex) (s : str) (n : nat) :
  starts_nonspace s -> match_here r s = Some n ->
  match_here (Star Space :: r) (32%N :: s) = Some (S n).
Proof.
  intros Hs Hr. simpl. change (is_space 32%N) with true.
  rewrite greedy_space_stop by assumption. now rewrite Hr.
Qed.

Lemma match_here_plus_space (r : regex) (s : str) (n : nat) :
  starts_nonspace s -> match_here r s = Some n ->
  match_here (Plus Space :: r) (32%N :: s) = Some (S n).
Proof.
  intros Hs Hr. simpl. change (is_space 32%N) with true.
  rewrite greedy_space_stop by assumption. now rewrite Hr.
Qed.

Definition article (t : str) : Prop :=
  case_variant "THE" t \/ case_variant "THIS" t.

Lemma match_here_article (r : regex) (t s : str) (n : nat) :
  article t -> match_here r s = Some n ->
  match_here (Alt [word "THE"; word "THIS"] :: r) (t ++ s)
  = Some (length t + n)%nat.
Proof.
  intros [Ht|Ht] Hr; cbn [match_here alt_then].
  - rewrite seq_then_matches by now apply case_variant_matches.
    now rewrite Hr.
  - assert (Hthe : seq_then (word "THE") (match_here r) (t ++ s) = None).
    { unfold case_variant in Ht.
      repeat match goal with
             | H : Forall2 _ _ _ |- _ => inversion H; clear H; subst
             end.
      repeat match goal with
             | H : _ \/ _ |- _ => destruct H; subst
             end; reflexivity. }
    rewrite Hthe.
    rewrite seq_then_matches by now apply case_variant_matches.
    now rewrite Hr.
Qed.

(** The closing asterisks: the lazy [.*?] stops at the first three. *)
Lemma cls_match_star (c : char) : cls_match (ChrI 42%N) c = N.eqb 42%N c.
Proof.
  unfold cls_match. change (swapcase 42%N) with 42%N.
  change (ignorecase_extra 42%N c) with false.
  now rewrite orb_false_r, orb_diag, N.eqb_sym.
Qed.

Lemma match_here_stars (s : str) :
  match_here (lit "***") s = if starts_with stars s then Some 3%nat else None.
Proof.
  unfold lit. rewrite <- (app_nil_r (map One (word "***"))), match_here_lit.
  change (word "***") with [ChrI 42%N; ChrI 42%N; ChrI 42%N].
  change stars with [42%N; 42%N; 42%N].
  destruct s as [|a [|b [|c s]]]; cbn [seq_then starts_with];
    rewrite ?cls_match_star;
    repeat match goal with
           | |- context [N.eqb 42%N ?x] => destruct (N.eqb 42%N x)
           end; reflexivity.
Qed.

Lemma starts_with_stars_pad (x : char) (t rest : str) :
  starts_with stars (x :: t ++ stars ++ rest)
  = starts_with stars (x :: t ++ [42%N; 42%N]).
Proof.
  change stars with [42%N; 42%N; 42%N].
  destruct t as [|y [|z t]]; cbn [app starts_with]; rewrite ?andb_true_r;
    reflexivity.
Qed.

Lemma match_here_lazy_stars (title rest : str) :
  find stars (title ++ [42%N; 42%N]) = None ->
  match_here (LazyStar Any :: lit "***") (title ++ stars ++ rest)
  = Some (length title + 3)%nat.
Proof.
  change (match_here (LazyStar Any :: lit "***"))
    with (lazy_then Any (match_here (lit "***"))).
  induction title as [|x t IH]; intros Hfind.
  - change (([] : str) ++ stars ++ rest) with (42%N :: 42%N :: 42%N :: rest).
    cbn [lazy_then]. rewrite match_here_stars. reflexivity.
  - cbn [app find] in Hfind.
    destruct (starts_with stars (x :: t ++ [42%N; 42%N])) eqn:Es; [discriminate|].
    destruct (find stars (t ++ [42%N; 42%N])) eqn:Ef; [discriminate|].
    change ((x :: t) ++ stars ++ rest) with (x :: t ++ stars ++ rest).
    cbn [lazy_then].
    rewrite match_here_stars, starts_with_stars_pad, Es.
    cbn [cls_match]. rewrite IH by reflexivity. reflexivity.
Qed.

(** [re.search] passes over the positions without a match. *)
Lemma search_from_skip (r : regex) (u : str) :
  forall (pos : nat) (s : str),
    (forall j, (j < length u)%nat -> match_here r (skipn j (u ++ s)) = None) ->
    search_from r pos (u ++ s) = search_from r (pos + length u) s.
Proof.
  induction u as [|x u IH]; intros pos s Hno; simpl.
  - now rewrite Nat.add_0_r.
  - pose proof (Hno O ltac:(simpl; lia)) as H0. simpl in H0. rewrite H0.
    rewrite IH.
    + f_equal. lia.
    + intros j Hj. apply (Hno (S j)). simpl. lia.
Qed.

Lemma search_from_here (r : regex) (pos n : nat) (s : str) :
  match_here r s = Some n -> search_from r pos s = Some (pos, (pos + n)%nat).
Proof. intros H. destruct s; simpl; now rewrite H. Qed.

End ReFacts.

Module CleanFacts.

Import Re Preprocess PyFacts ReFacts.

Definition sp : str := [32%N].

(** The text of a marker from its opening asterisks to EBOOK, the words
    in any case and one space apart. *)
Inductive marker_head (keyword : string) : str -> Prop :=
| marker_head_intro (k o t p g e : str) :
    case_variant keyword k -> case_variant "OF" o -> article t ->
    case_variant "PROJECT" p -> case_variant "GUTENBERG" g ->
    case_variant "EBOOK" e ->
    marker_head keyword
      (stars ++ sp ++ k ++ sp ++ o ++ sp ++ t ++ sp ++ p ++ sp ++ g ++ sp ++ e).

Lemma letters_word (w : string) :
  forallb (fun p => negb (is_space p) && negb (is_space (swapcase p))) (str_of w)
  = true ->
  letters w.
Proof.
  unfold letters. intros H. apply Forall_forall. intros p Hp.
  rewrite forallb_forall in H. specialize (H p Hp).
  apply andb_true_iff in H as [H1 H2].
  now rewrite negb_true_iff in H1, H2.
Qed.

Lemma article_nonspace (t s : str) : article t -> starts_nonspace (t ++ s).
Proof.
  intros [H|H]; eapply case_variant_nonspace; try exact H;
    try discriminate; now apply letters_word.
Qed.

(** A marker is matched from its first asterisk to the first three
    asterisks after EBOOK. *)
Lemma marker_match (keyword : string) (head title rest : str) :
  letters keyword -> str_of keyword <> [] ->
  marker_head keyword head ->
  find stars (title ++ [42%N; 42%N]) = None ->
  match_here (marker_pattern keyword) (head ++ title ++ stars ++ rest)
  = Some (length (head ++ title ++ stars)).
Proof.
  intros Hl Hne [k o t p g e Hk Ho Ht Hp Hg He] Hfind.
  pose proof (match_here_lazy_stars title rest Hfind) as H.
  apply (match_here_word "EBOOK" _ e _ _ He) in H.
  apply match_here_plus_space in H;
    [|eapply case_variant_nonspace; try exact He; try discriminate;
      now apply letters_word].
  apply (match_here_word "GUTENBERG" _ g _ _ Hg) in H.
  apply match_here_plus_space in H;
    [|eapply case_variant_nonspace; try exact Hg; try discriminate;
      now apply letters_word].
  apply (match_here_word "PROJECT" _ p _ _ Hp) in H.
  apply match_here_plus_space in H;
    [|eapply case_variant_nonspace; try exact Hp; try discriminate;
      now apply letters_word].
  apply (match_here_article _ t _ _ Ht) in H.
  apply match_here_plus_space in H; [|now apply article_nonspace].
  apply (match_here_word "OF" _ o _ _ Ho) in H.
  apply match_here_plus_space in H;
    [|eapply case_variant_nonspace; try exact Ho; try discriminate;
      now apply letters_word].
  apply (match_here_word keyword _ k _ _ Hk) in H.
  apply match_here_star_space in H;
    [|eapply case_variant_nonspace; try exact Hk; assumption].
  apply (match_here_word "***" _ stars) in H;
    [|repeat constructor].
  rewrite <- !app_assoc.
  etransitivity; [exact H|].
  f_equal. rewrite !length_app. simpl. lia.
Qed.

Lemma slice_middle {A : Type} (a b c : list A) :
  slice (a ++ b ++ c) (len a) (len a + len b) = b.
Proof.
  pose proof (len_nonneg a). pose proof (len_nonneg b).
  rewrite slice_nonneg by lia. unfold len.
  replace (Z.of_nat (length a) + Z.of_nat (length b) - Z.of_nat (length a))
    with (Z.of_nat (length b)) by lia.
  rewrite !Nat2Z.id, skipn_app, skipn_all, Nat.sub_diag. simpl.
  rewrite firstn_app, firstn_all, Nat.sub_diag. simpl. apply app_nil_r.
Qed.

(** With both markers found, [extract] slices between them. *)
Lemma extract_found (t : str) (s0 s1 e0 e1 : nat) :
  search start_pattern t = Some (s0, s1) ->
  search end_pattern t = Some (e0, e1) ->
  extract t = Returned (strip (slice t (Z.of_nat s1) (Z.of_nat e0))).
Proof. intros Hs He. unfold extract. rewrite Hs, He. reflexivity. Qed.

Lemma replace_from_length (old : str) (c : char) (s : str) :
  forall skip, (length (replace_from old [c] skip s) <= length s)%nat.
Proof.
  induction s as [|x s IH]; intros skip; simpl; [lia|].
  destruct skip as [|k].
  - destruct (starts_with old (x :: s)); simpl.
    + specialize (IH (length old - 1)%nat). lia.
    + specialize (IH O). lia.
  - specialize (IH k). lia.
Qed.

Lemma normalize_newlines_length (text : str) :
  len (normalize_newlines text) <= len text.
Proof.
  unfold normalize_newlines, replace, len.
  pose proof (replace_from_length [CR; LF] LF text 0).
  pose proof (replace_from_length [CR] LF (replace_from [CR; LF] [LF] 0 text) 0).
  lia.
Qed.

Lemma replace_from_absent (h : char) (tl new s : str) :
  Forall (fun c => c <> h) s -> replace_from (h :: tl) new 0 s = s.
Proof.
  induction 1 as [|x s Hx _ IH]; simpl; [reflexivity|].
  destruct (N.eqb_spec h x) as [->|_]; [contradiction|].
  simpl. now rewrite IH.
Qed.

Lemma normalize_newlines_without_cr (text : str) :
  Forall (fun c => c <> CR) text -> normalize_newlines text = text.
Proof.
  intros H. unfold normalize_newlines, replace.
  rewrite (replace_from_absent CR [LF] [LF] text H).
  exact (replace_from_absent CR [] [LF] text H).
Qed.

End CleanFacts.

(** ** [clean_gutenberg] *)

Module CleanSpec.

Import Re Preprocess PyFacts ReFacts CleanFacts FloatFacts.

Lemma extract_returns (t : str) :
  len t <= PY_SSIZE_T_MAX -> exists s, extract t = Returned s.
Proof.
  intros Hlen. unfold extract.
  destruct (search start_pattern t) as [[s0 s1]|];
    destruct (search end_pattern t) as [[e0 e1]|]; simpl;
    try (eexists; reflexivity).
  all: pose proof (len_nonneg t) as Hn; unfold PY_SSIZE_T_MAX in Hlen;
    destruct (scaled_length_returns 7205759403792794 (-56) (len t))
      as [lo Hlo]; [lia|vm_compute; reflexivity|lia|];
    destruct (scaled_length_returns 8106479329266893 (-53) (len t))
      as [hi Hhi]; [lia|vm_compute; reflexivity|lia|];
    unfold Float.lit_0_1, Float.lit_0_9; rewrite Hlo, Hhi; simpl;
    eexists; reflexivity.
Qed.

Lemma extract_fallback (t : str) :
  search start_pattern t = None \/ search end_pattern t = None ->
  len t <= 2 ^ 49 ->
  extract t = Returned (slice t (len t / 10) (9 * len t / 10)).
Proof.
  intros Hnone Hlen. unfold extract.
  assert (Hf : found (search start_pattern t) && found (search end_pattern t)
               = false).
  { destruct Hnone as [-> | ->]; [reflexivity|apply andb_false_r]. }
  rewrite Hf. pose proof (len_nonneg t).
  rewrite tenth_of_length, nine_tenths_of_length by lia. reflexivity.
Qed.

(** C6 (as amended). When a marker is missing from the text with its line
    endings normalised, the content extracted from that text, of length
    [n <= 2^49], is its slice from [n / 10] to [9 * n / 10], rounded down:
    from 100 to 900 when [n] is 1000. The normalised text is the input
    when the input has no carriage return. *)
Theorem clean_gutenberg_fallback (text : str) :
  let t := normalize_newlines text in
  let n := len t in
  search start_pattern t = None \/ search end_pattern t = None ->
  n <= 2 ^ 49 ->
  extract t = Returned (slice t (n / 10) (9 * n / 10))
  /\ clean_gutenberg text
     = Returned (postprocess (slice t (n / 10) (9 * n / 10)))
  /\ (n = 1000 -> extract t = Returned (slice t 100 900))
  /\ (Forall (fun c => c <> CR) text -> t = text).
Proof.
  intros t n Hnone Hlen.
  pose proof (extract_fallback t Hnone Hlen) as He. fold n in He.
  split; [exact He|]. split; [|split].
  - unfold clean_gutenberg. fold t. rewrite He. reflexivity.
  - intros Hn. rewrite He, Hn. reflexivity.
  - apply normalize_newlines_without_cr.
Qed.

Definition plain_text : str := repeat 97%N 1000.

Lemma clean_gutenberg_fallback_witness :
  let t := normalize_newlines plain_text in
  let n := len t in
  (search start_pattern t = None \/ search end_pattern t = None)
  /\ n <= 2 ^ 49
  /\ extract t = Returned (slice t (n / 10) (9 * n / 10))
  /\ clean_gutenberg plain_text
     = Returned (postprocess (slice t (n / 10) (9 * n / 10)))
  /\ (n = 1000 -> extract t = Returned (slice t 100 900))
  /\ (Forall (fun c => c <> CR) plain_text -> t = plain_text).
Proof.
  assert (H1 : search start_pattern (normalize_newlines plain_text) = None
               \/ search end_pattern (normalize_newlines plain_text) = None)
    by (left; vm_compute; reflexivity).
  assert (H2 : len (normalize_newlines plain_text) <= 2 ^ 49)
    by (vm_compute; discriminate).
  split; [exact H1|]. split; [exact H2|].
  exact (clean_gutenberg_fallback plain_text H1 H2).
Defined.

(** C6 (as stated) fails: an input of 1000 characters without markers,
    a hundred CR LF pairs and then 800 letters, is normalised to 900
    characters, and the content extracted is the slice from 90 to 810 of
    those, not the slice from 100 to 900 of the input: 710 letters are
    returned, not 700. *)
Definition crlf_text : str :=
  concat (repeat [CR; LF] 100) ++ repeat 97%N 800.

Lemma clean_gutenberg_fallback_after_normalization :
  len crlf_text = 1000
  /\ search start_pattern (normalize_newlines crlf_text) = None
  /\ search end_pattern (normalize_newlines crlf_text) = None
  /\ extract (normalize_newlines crlf_text)
     = Returned (repeat LF 10 ++ repeat 97%N 710)
  /\ slice crlf_text 100 900 = concat (repeat [CR; LF] 50) ++ repeat 97%N 700
  /\ clean_gutenberg crlf_text = Returned (repeat 97%N 710)
  /\ postprocess (slice crlf_text 100 900) = repeat 97%N 700.
Proof. repeat split; vm_compute; reflexivity. Qed.

(** C10. When both markers are found and the end marker begins at or
    before the end of the start marker, the content extracted is the
    empty string and [clean_gutenberg] returns the empty string. *)
Theorem clean_gutenberg_end_before_start (text : str) (s0 s1 e0 e1 : nat) :
  let t := normalize_newlines text in
  search start_pattern t = Some (s0, s1) ->
  search end_pattern t = Some (e0, e1) ->
  (e0 <= s1)%nat ->
  extract t = Returned [] /\ clean_gutenberg text = Returned [].
Proof.
  intros t Hs He Hle.
  assert (Hx : extract t = Returned []).
  { rewrite (extract_found t s0 s1 e0 e1 Hs He).
    rewrite slice_empty by lia. reflexivity. }
  split; [exact Hx|].
  unfold clean_gutenberg. fold t. rewrite Hx. reflexivity.
Qed.

Definition preface_text : str :=
  str_of "*** END OF THE PROJECT GUTENBERG EBOOK X *** preface *** START OF THE PROJECT GUTENBERG EBOOK X *** story".

Lemma clean_gutenberg_end_before_start_witness :
  let t := normalize_newlines preface_text in
  search start_pattern t = Some (53, 99)%nat
  /\ search end_pattern t = Some (0, 44)%nat
  /\ (0 <= 99)%nat
  /\ extract t = Returned [] /\ clean_gutenberg preface_text = Returned [].
Proof.
  assert (H1 : search start_pattern (normalize_newlines preface_text)
               = Some (53, 99)%nat) by (vm_compute; reflexivity).
  assert (H2 : search end_pattern (normalize_newlines preface_text)
               = Some (0, 44)%nat) by (vm_compute; reflexivity).
  assert (H3 : (0 <= 99)%nat) by lia.
  split; [exact H1|]. split; [exact H2|]. split; [exact H3|].
  exact (clean_gutenberg_end_before_start preface_text 53 99 0 44 H1 H2 H3).
Defined.

(** A computable test that a pattern matches nowhere before a position. *)
Lemma no_match_before (r : regex) (t : str) (n : nat) :
  forallb (fun j => match match_here r (skipn j t) with
                    | None => true
                    | Some _ => false
                    end) (seq 0 n) = true ->
  forall j, (j < n)%nat -> match_here r (skipn j t) = None.
Proof.
  intros H j Hj. rewrite forallb_forall in H.
  specialize (H j). rewrite in_seq in H.
  destruct (match_here r (skipn j t)); [|reflexivity].
  discriminate H. lia.
Qed.

Lemma letters_START : letters "START".
Proof. now apply letters_word. Qed.

Lemma letters_END : letters "END".
Proof. now apply letters_word. Qed.

(** The matches of both patterns on a text that is a START marker, a
    body and an END marker. *)
Lemma search_between_markers (head_s head_e title body : str) :
  let before := head_s ++ title ++ stars ++ body in
  let t := before ++ head_e ++ title ++ stars in
  marker_head "START" head_s -> marker_head "END" head_e ->
  find stars (title ++ [42%N; 42%N]) = None ->
  (forall j, (j < length before)%nat ->
             match_here end_pattern (skipn j t) = None) ->
  search start_pattern t
  = Some (O, length (head_s ++ title ++ stars))
  /\ search end_pattern t
     = Some (length before, (length before + length (head_e ++ title ++ stars))%nat).
Proof.
  intros before t Hs He Hfind Hno. split.
  - unfold search. subst t before. rewrite <- !app_assoc.
    rewrite (search_from_here start_pattern 0
               (length (head_s ++ title ++ stars))); [reflexivity|].
    apply marker_match; try assumption; [apply letters_START|discriminate].
  - unfold search. subst t.
    rewrite search_from_skip by exact Hno.
    apply search_from_here.
    rewrite <- (app_nil_r stars) at 1.
    unfold end_pattern.
    rewrite (marker_match "END" head_e title []); try assumption;
      [|apply letters_END|discriminate].
    reflexivity.
Qed.

(** C5 (as amended). Let the text, with its line endings normalised, be
    a START marker, a body and an END marker: each marker the words of
    its pattern in any case, one space apart, with THE or THIS, then a
    title and three asterisks that are the first three asterisks after
    EBOOK. If the END pattern matches nowhere before the END marker, then
    [clean_gutenberg] returns the body stripped, without its underscores,
    with every run of whitespace as one space, stripped again, and
    without its "contents I." headings. *)
Theorem clean_gutenberg_between_markers
  (text head_s head_e title body : str) :
  marker_head "START" head_s -> marker_head "END" head_e ->
  find stars (title ++ [42%N; 42%N]) = None ->
  normalize_newlines text
  = (head_s ++ title ++ stars ++ body) ++ head_e ++ title ++ stars ->
  (forall j, (j < length (head_s ++ title ++ stars ++ body))%nat ->
             match_here end_pattern (skipn j (normalize_newlines text)) = None) ->
  extract (normalize_newlines text) = Returned (strip body)
  /\ clean_gutenberg text = Returned (postprocess (strip body)).
Proof.
  intros Hs He Hfind Hnorm Hno.
  assert (Hx : extract (normalize_newlines text) = Returned (strip body)).
  { rewrite Hnorm in *.
    destruct (search_between_markers head_s head_e title body Hs He Hfind Hno)
      as [Hstart Hend].
    rewrite (extract_found _ _ _ _ _ Hstart Hend). do 2 f_equal.
    replace ((head_s ++ title ++ stars ++ body) ++ head_e ++ title ++ stars)
      with ((head_s ++ title ++ stars) ++ body ++ head_e ++ title ++ stars)
      by now rewrite <- !app_assoc.
    replace (Z.of_nat (length (head_s ++ title ++ stars ++ body)))
      with (len (head_s ++ title ++ stars) + len body).
    - apply slice_middle.
    - unfold len. rewrite !length_app. lia. }
  split; [exact Hx|].
  unfold clean_gutenberg. rewrite Hx. reflexivity.
Qed.

Definition study_head_s : str :=
  stars ++ sp ++ str_of "START" ++ sp ++ str_of "OF" ++ sp ++ str_of "THE"
  ++ sp ++ str_of "Project" ++ sp ++ str_of "Gutenberg" ++ sp ++ str_of "eBook".

Definition study_head_e : str :=
  stars ++ sp ++ str_of "END" ++ sp ++ str_of "OF" ++ sp ++ str_of "THIS"
  ++ sp ++ str_of "Project" ++ sp ++ str_of "Gutenberg" ++ sp ++ str_of "eBook".

Definition study_title : str := str_of " A STUDY IN SCARLET ".

Definition study_body_crlf : str :=
  [CR; LF] ++ str_of "In the year 1878 I took my _degree_  of Doctor" ++ [CR; LF].

Definition study_body : str :=
  [LF] ++ str_of "In the year 1878 I took my _degree_  of Doctor" ++ [LF].

Definition study_text : str :=
  study_head_s ++ study_title ++ stars ++ study_body_crlf
  ++ study_head_e ++ study_title ++ stars.

Ltac variant :=
  unfold case_variant;
  repeat (constructor; [first [left; reflexivity | right; reflexivity]|]);
  constructor.

Lemma clean_gutenberg_between_markers_witness :
  marker_head "START" study_head_s /\ marker_head "END" study_head_e
  /\ find stars (study_title ++ [42%N; 42%N]) = None
  /\ normalize_newlines study_text
     = (study_head_s ++ study_title ++ stars ++ study_body)
       ++ study_head_e ++ study_title ++ stars
  /\ (forall j,
        (j < length (study_head_s ++ study_title ++ stars ++ study_body))%nat ->
        match_here end_pattern (skipn j (normalize_newlines study_text)) = None)
  /\ extract (normalize_newlines study_text) = Returned (strip study_body)
  /\ clean_gutenberg study_text = Returned (postprocess (strip study_body))
  /\ postprocess (strip study_body)
     = str_of "In the year 1878 I took my degree of Doctor".
Proof.
  assert (H1 : marker_head "START" study_head_s)
    by (constructor; [variant|variant|left; variant|variant|variant|variant]).
  assert (H2 : marker_head "END" study_head_e)
    by (constructor; [variant|variant|right; variant|variant|variant|variant]).
  assert (H3 : find stars (study_title ++ [42%N; 42%N]) = None)
    by (vm_compute; reflexivity).
  assert (H4 : normalize_newlines study_text
               = (study_head_s ++ study_title ++ stars ++ study_body)
                 ++ study_head_e ++ study_title ++ stars)
    by (vm_compute; reflexivity).
  assert (H5 : forall j,
             (j < length (study_head_s ++ study_title ++ stars ++ study_body))%nat ->
             match_here end_pattern (skipn j (normalize_newlines study_text)) = None)
    by (apply no_match_before; vm_compute; reflexivity).
  split; [exact H1|]. split; [exact H2|]. split; [exact H3|].
  split; [exact H4|]. split; [exact H5|].
  destruct (clean_gutenberg_between_markers
              study_text study_head_s study_head_e study_title study_body
              H1 H2 H3 H4 H5) as [Hx Hc].
  split; [exact Hx|]. split; [exact Hc|]. vm_compute. reflexivity.
Defined.

(** C5 (as stated) fails. The underscores of the body are removed, which
    is no whitespace normalisation; when the title holds three asterisks
    the START marker ends there, so that what follows them in the title
    is returned with the body; and when the body holds an END marker the
    content ends there. *)
Lemma clean_gutenberg_not_only_whitespace :
  clean_gutenberg
    (str_of "*** START OF THE PROJECT GUTENBERG EBOOK X ***a_b*** END OF THE PROJECT GUTENBERG EBOOK X ***")
  = Returned (str_of "ab")
  /\ strip (sub whitespace_run (str_of " ") (str_of "a_b")) = str_of "a_b"
  /\ clean_gutenberg
       (str_of "*** START OF THE PROJECT GUTENBERG EBOOK A***B ***BODY*** END OF THE PROJECT GUTENBERG EBOOK A***B ***")
     = Returned (str_of "B ***BODY")
  /\ clean_gutenberg
       (str_of "*** START OF THE PROJECT GUTENBERG EBOOK X ***a*** END OF THE PROJECT GUTENBERG EBOOK ***b*** END OF THE PROJECT GUTENBERG EBOOK X ***")
     = Returned (str_of "a").
Proof. repeat split; vm_compute; reflexivity. Qed.

Lemma digits_of_utf_8 (d : Decimal.uint) :
  forallb Stdout.utf_8 (digits_of d) = true.
Proof. induction d; simpl; auto. Qed.

Lemma found_line_utf_8 (story_text : str) :
  Stdout.can_encode Stdout.utf_8 (found_line story_text) = true.
Proof.
  unfold Stdout.can_encode, found_line, str_of_nat.
  rewrite !forallb_app, digits_of_utf_8. reflexivity.
Qed.

(** The line that [clean_gutenberg] prints for a text whose line endings
    are normalised. *)
Definition printed_line (t : str) : str :=
  match search start_pattern t, search end_pattern t with
  | Some (_, s1), Some (e0, _) =>
      found_line (strip (slice t (Z.of_nat s1) (Z.of_nat e0)))
  | _, _ => fallback_line
  end.

Lemma printed_line_encodings (t : str) :
  Stdout.can_encode Stdout.utf_8 (printed_line t) = true
  /\ Stdout.can_encode Stdout.us_ascii (printed_line t) = false.
Proof.
  unfold printed_line.
  destruct (search start_pattern t) as [[s0 s1]|];
    destruct (search end_pattern t) as [[e0 e1]|];
    split; try reflexivity; apply found_line_utf_8.
Qed.

(** C7 (as amended). On every string of a length that Python allows,
    [clean_gutenberg] prints one line before it returns: the report of
    the extracted length when both markers are found, the warning of the
    fallback otherwise. When the standard output can encode that line,
    [clean_gutenberg] writes it and returns a string, which is the same
    for every standard output; when it cannot, [clean_gutenberg] writes
    nothing and raises [UnicodeEncodeError]. UTF-8 encodes both lines;
    ASCII encodes neither, each beginning with a symbol outside it. No
    other exception is raised. *)
Theorem clean_gutenberg_prints_and_returns (text : str) :
  len text <= PY_SSIZE_T_MAX ->
  let line := printed_line (normalize_newlines text) in
  exists s,
    clean_gutenberg text = Returned s
    /\ (forall enc,
          clean_gutenberg_stdout text enc
          = if Stdout.can_encode enc line then ([line], Returned s)
            else ([], Raised UnicodeEncodeError))
    /\ clean_gutenberg_stdout text Stdout.utf_8 = ([line], Returned s)
    /\ clean_gutenberg_stdout text Stdout.us_ascii
       = ([], Raised UnicodeEncodeError).
Proof.
  intros Hlen line.
  set (t := normalize_newlines text) in *.
  assert (Ht : len t <= PY_SSIZE_T_MAX)
    by (pose proof (normalize_newlines_length text); subst t; lia).
  assert (Hmain : exists s,
             clean_gutenberg text = Returned s
             /\ forall enc,
                  clean_gutenberg_stdout text enc
                  = if Stdout.can_encode enc line then ([line], Returned s)
                    else ([], Raised UnicodeEncodeError)).
  { subst line. unfold clean_gutenberg_stdout, clean_gutenberg, extract,
      printed_line. fold t.
    pose proof (len_nonneg t) as Hn. unfold PY_SSIZE_T_MAX in Ht.
    destruct (scaled_length_returns 7205759403792794 (-56) (len t))
      as [lo Hlo]; [lia|vm_compute; reflexivity|lia|].
    destruct (scaled_length_returns 8106479329266893 (-53) (len t))
      as [hi Hhi]; [lia|vm_compute; reflexivity|lia|].
    unfold Float.lit_0_1, Float.lit_0_9.
    destruct (search start_pattern t) as [[s0 s1]|];
      destruct (search end_pattern t) as [[e0 e1]|];
      (eexists; split;
       [ simpl; try rewrite Hlo; simpl; try rewrite Hhi; simpl; reflexivity
       | intros enc;
         cbv beta iota delta [found andb match_end match_start Stdout.then_
                                Stdout.lift Stdout.print Stdout.ret];
         match goal with
         | |- context [Stdout.can_encode enc ?l] =>
             destruct (Stdout.can_encode enc l)
         end;
         simpl; try rewrite Hlo; simpl; try rewrite Hhi; simpl;
         reflexivity ]). }
  destruct Hmain as (s & Hs & Hall). exists s.
  destruct (printed_line_encodings t) as [Hu Ha]. fold line in Hu, Ha.
  split; [exact Hs|]. split; [exact Hall|]. split.
  - rewrite Hall, Hu. reflexivity.
  - rewrite Hall, Ha. reflexivity.
Qed.

Lemma clean_gutenberg_prints_and_returns_witness :
  len study_text <= PY_SSIZE_T_MAX
  /\ printed_line (normalize_newlines study_text)
     = [9989%N] ++ str_of " Found markers, extracted 46 characters"
  /\ exists s,
       clean_gutenberg study_text = Returned s
       /\ (forall enc,
             clean_gutenberg_stdout study_text enc
             = if Stdout.can_encode enc
                    (printed_line (normalize_newlines study_text))
               then ([printed_line (normalize_newlines study_text)],
                     Returned s)
               else ([], Raised UnicodeEncodeError))
       /\ clean_gutenberg_stdout study_text Stdout.utf_8
          = ([printed_line (normalize_newlines study_text)], Returned s)
       /\ clean_gutenberg_stdout study_text Stdout.us_ascii
          = ([], Raised UnicodeEncodeError).
Proof.
  assert (H : len study_text <= PY_SSIZE_T_MAX) by (vm_compute; discriminate).
  split; [exact H|]. split; [vm_compute; reflexivity|].
  exact (clean_gutenberg_prints_and_returns study_text H).
Defined.

(** C7 (as stated) fails. On a text of a thousand letters, which has no
    marker, [clean_gutenberg] writes the warning to a standard output
    that encodes UTF-8, so that it is not without effect, and on a
    standard output that encodes ASCII only it raises
    [UnicodeEncodeError]. *)
Lemma clean_gutenberg_raises_on_ascii_stdout :
  clean_gutenberg_stdout plain_text Stdout.us_ascii
  = ([], Raised UnicodeEncodeError)
  /\ clean_gutenberg_stdout plain_text Stdout.utf_8
     = ([fallback_line], Returned (repeat 97%N 800)).
Proof. split; vm_compute; reflexivity. Qed.

End CleanSpec.

(** ** [process_books] *)

Module ProcessSpec.

Import Preprocess PyFacts ChunkFacts ChunkSpec CleanFacts CleanSpec.























End ProcessSpec.

(* ================================================================== *)
(** * Part III: further properties of the pipeline *)
(* ================================================================== *)

(** ** [chunk_text]: where the chunks lie in the text *)

Module ChunkLayout.

Import Preprocess PyFacts ChunkFacts ChunkSpec.

(** The chunks put together again: the first, and the others without
    their first [overlap] words. *)
Definition stitch (overlap : nat) (chunks : list (list str)) : list str :=
  match chunks with
  | [] => []
  | w :: rest => w ++ concat (map (skipn overlap) rest)
  end.

Section Layout.

Variable words : list str.
Variables max_words min_words overlap : Z.

Local Abbreviation window := (ChunkFacts.window words max_words).
Local Abbreviation step := (ChunkFacts.step max_words overlap).
Local Abbreviation emitted := (ChunkFacts.emitted words max_words min_words overlap).

(** After a window that is dropped no window is emitted. *)
Lemma emitted_after_dropped (k : nat) (start : Z) :
  0 <= start -> 0 <= max_words -> 1 <= step ->
  start < len words -> len (window start) < min_words ->
  emitted k (start + step) = [].
Proof.
  intros Hs Hm Hstep Hn Hshort. apply emitted_none; [lia|].
  intros s Hss Hsn.
  rewrite window_length in * by lia. lia.
Qed.

(** The [i]-th window emitted from [start] on is the window at
    [start + i * step]. *)
Lemma emitted_nth (k : nat) :
  forall (start : Z) (i : nat) (w : list str),
    0 <= start -> 0 <= max_words -> 1 <= step ->
    nth_error (emitted k start) i = Some w ->
    w = window (start + Z.of_nat i * step).
Proof.
  induction k as [|k IH]; intros start i w Hs Hm Hstep Hnth.
  - destruct i; discriminate.
  - cbn [ChunkFacts.emitted] in Hnth.
    destruct (start <? len words) eqn:E; [|destruct i; discriminate].
    apply Z.ltb_lt in E.
    destruct (min_words <=? len (window start)) eqn:Em.
    + destruct i as [|i]; simpl in Hnth.
      * injection Hnth as <-. f_equal. lia.
      * apply IH in Hnth; try lia. rewrite Hnth. f_equal. lia.
    + apply Z.leb_gt in Em. simpl in Hnth.
      rewrite (emitted_after_dropped k start Hs Hm Hstep E Em) in Hnth.
      destruct i; discriminate.
Qed.

(** The number of windows emitted. *)
Lemma emitted_count (k : nat) :
  forall start : Z,
    0 <= start -> 1 <= min_words <= max_words -> 1 <= step ->
    len words - start <= Z.of_nat k ->
    Z.of_nat (length (emitted k start))
    = if len words - start <? min_words then 0
      else (len words - start - min_words) / step + 1.
Proof.
  induction k as [|k IH]; intros start Hs Hm Hstep Hk.
  - simpl. destruct (len words - start <? min_words) eqn:E; [reflexivity|].
    apply Z.ltb_ge in E. lia.
  - cbn [ChunkFacts.emitted].
    destruct (start <? len words) eqn:En.
    + apply Z.ltb_lt in En.
      destruct (min_words <=? len (window start)) eqn:Em.
      * apply Z.leb_le in Em. rewrite window_length in Em by lia.
        rewrite length_app. simpl length. rewrite Nat2Z.inj_succ.
        rewrite IH by lia.
        destruct (len words - start <? min_words) eqn:E1;
          [apply Z.ltb_lt in E1; lia|].
        destruct (len words - (start + step) <? min_words) eqn:E2.
        -- apply Z.ltb_lt in E2.
           rewrite Z.div_small by lia. reflexivity.
        -- apply Z.ltb_ge in E2.
           replace (len words - start - min_words)
             with (len words - (start + step) - min_words + 1 * step) by lia.
           rewrite Z.div_add by lia. lia.
      * apply Z.leb_gt in Em.
        simpl. rewrite (emitted_after_dropped k start Hs ltac:(lia) Hstep En Em).
        rewrite window_length in Em by lia.
        destruct (len words - start <? min_words) eqn:E1; [reflexivity|].
        apply Z.ltb_ge in E1. lia.
    + apply Z.ltb_ge in En. simpl.
      destruct (len words - start <? min_words) eqn:E1; [reflexivity|].
      apply Z.ltb_ge in E1. lia.
Qed.

Lemma firstn_add {A : Type} (a b : nat) (l : list A) :
  firstn (a + b) l = firstn a l ++ firstn b (skipn a l).
Proof.
  revert l. induction a as [|a IH]; intros l; simpl; [reflexivity|].
  destruct l; simpl; [now rewrite firstn_nil|]. now rewrite IH.
Qed.

(** The words up to the overlap of a window, and then the window without
    its overlap, are the words up to the end of the window. *)
Lemma window_extends (s : Z) :
  0 <= s -> 0 <= overlap -> 1 <= step ->
  firstn (Z.to_nat (Z.min (s + overlap) (len words))) words
  ++ skipn (Z.to_nat overlap) (window s)
  = firstn (Z.to_nat (Z.min (s + max_words) (len words))) words.
Proof.
  intros Hs Ho Hstep. unfold ChunkFacts.window, ChunkFacts.step in *.
  rewrite slice_nonneg by lia.
  rewrite skipn_firstn_comm, skipn_skipn.
  replace (Z.to_nat (s + max_words - s) - Z.to_nat overlap)%nat
    with (Z.to_nat (max_words - overlap)) by lia.
  destruct (Z_le_gt_dec (s + overlap) (len words)) as [Hin|Hout].
  - rewrite (Z.min_l (s + overlap)) by lia.
    replace (Z.to_nat overlap + Z.to_nat s)%nat with (Z.to_nat (s + overlap)) by lia.
    rewrite <- firstn_add.
    destruct (Z_le_gt_dec (s + max_words) (len words)) as [Hin'|Hout'].
    + rewrite (Z.min_l (s + max_words)) by lia. f_equal. lia.
    + rewrite (Z.min_r (s + max_words)) by lia.
      unfold len in *. rewrite !firstn_all2; [reflexivity| |]; lia.
  - rewrite (Z.min_r (s + overlap)), (Z.min_r (s + max_words)) by lia.
    rewrite (skipn_all2 words) by (unfold len in *; lia).
    now rewrite firstn_nil, app_nil_r.
Qed.

(** The windows emitted from [start] on, without their overlaps, extend
    the words up to the overlap of the first to a prefix of the words
    that lacks fewer than [min_words - overlap] words. *)
Lemma emitted_stitched (k : nat) :
  forall start : Z,
    0 <= start -> 0 <= overlap -> 1 <= step -> min_words <= max_words ->
    len words - start <= Z.of_nat k ->
    exists e,
      Z.min (start + overlap) (len words) <= e <= len words
      /\ firstn (Z.to_nat (Z.min (start + overlap) (len words))) words
         ++ concat (map (skipn (Z.to_nat overlap)) (emitted k start))
         = firstn (Z.to_nat e) words
      /\ len words - e <= Z.max 0 (min_words - overlap - 1).
Proof.
  induction k as [|k IH]; intros start Hs Ho Hstep Hm Hk.
  - exists (Z.min (start + overlap) (len words)). simpl.
    rewrite app_nil_r. repeat split; lia.
  - assert (Hmx : 0 <= max_words) by (unfold ChunkFacts.step in Hstep; lia).
    cbn [ChunkFacts.emitted].
    destruct (start <? len words) eqn:En.
    + apply Z.ltb_lt in En.
      destruct (min_words <=? len (window start)) eqn:Em.
      * destruct (IH (start + step)) as (e & He & Heq & Hloss);
          try (unfold ChunkFacts.step in *; lia).
        exists e.
        replace (start + step + overlap) with (start + max_words) in *
          by (unfold ChunkFacts.step; lia).
        split; [lia|]. split; [|exact Hloss].
        cbn [app map concat]. rewrite app_assoc.
        rewrite window_extends by assumption. exact Heq.
      * apply Z.leb_gt in Em.
        cbn [app]. rewrite (emitted_after_dropped k start) by assumption.
        rewrite window_length in Em by lia.
        exists (Z.min (start + overlap) (len words)). simpl.
        rewrite app_nil_r. repeat split; lia.
    + apply Z.ltb_ge in En.
      exists (Z.min (start + overlap) (len words)). simpl.
      rewrite app_nil_r. repeat split; lia.
Qed.

Lemma emitted_stitch_all (k : nat) :
  0 <= overlap -> 1 <= step -> len words <= Z.of_nat k ->
  exists kept,
    (kept <= length words)%nat
    /\ stitch (Z.to_nat overlap) (emitted k 0) = firstn kept words
    /\ (emitted k 0 <> [] ->
        len words - Z.of_nat kept <= Z.max 0 (min_words - overlap - 1)).
Proof.
  intros Ho Hstep Hk.
  assert (Hmx : 0 <= max_words) by (unfold ChunkFacts.step in Hstep; lia).
  destruct k as [|k].
  - exists O. simpl. repeat split; [lia|congruence].
  - cbn [ChunkFacts.emitted].
    destruct (0 <? len words) eqn:E0.
    + apply Z.ltb_lt in E0.
      destruct (min_words <=? len (window 0)) eqn:Em.
      * apply Z.leb_le in Em. rewrite window_length in Em by lia.
        destruct (emitted_stitched k (0 + step))
          as (e & He & Heq & Hloss); try (unfold ChunkFacts.step in *; lia).
        exists (Z.to_nat e). split; [unfold len in *; lia|].
        split.
        -- cbn [app stitch]. rewrite <- Heq. f_equal.
           unfold ChunkFacts.window. rewrite slice_nonneg by lia.
           unfold ChunkFacts.step. simpl skipn.
           destruct (Z_le_gt_dec max_words (len words)).
           ++ f_equal. lia.
           ++ unfold len in *. rewrite !firstn_all2; [reflexivity| |]; lia.
        -- intros _. rewrite Z2Nat.id by lia. exact Hloss.
      * cbn [app]. apply Z.leb_gt in Em.
        rewrite (emitted_after_dropped k 0) by (assumption || lia).
        exists O. repeat split; [lia|congruence].
    + exists O. simpl. repeat split; [lia|congruence].
Qed.

End Layout.

Lemma split_join_all (ws : list (list str)) :
  Forall (Forall is_word) ws ->
  map split (map (join (str_of " ")) ws) = ws.
Proof.
  induction 1 as [|w ws Hw _ IH]; simpl; [reflexivity|].
  now rewrite split_join, IH.
Qed.

(** X1. With [0 <= max_words], [overlap < max_words] and enough fuel,
    the [i]-th chunk that [chunk_text] returns, counting from zero, is
    the words of the text from index [i * (max_words - overlap)] up to
    [max_words] further, joined by single spaces. *)
Theorem chunk_text_positions (text : str) (max_words min_words overlap : Z)
  (fuel : nat) :
  0 <= max_words -> overlap < max_words -> (length (split text) < fuel)%nat ->
  exists chunks,
    chunk_text fuel text max_words min_words overlap = Returned chunks
    /\ forall i c,
         nth_error chunks i = Some c ->
         let start := Z.of_nat i * (max_words - overlap) in
         c = join (str_of " ") (slice (split text) start (start + max_words))
         /\ split c = slice (split text) start (start + max_words).
Proof.
  intros Hm Ho Hfuel. eexists. split; [apply chunk_text_emitted; assumption|].
  intros i c Hc start. rewrite nth_error_map in Hc.
  destruct (nth_error _ i) as [w|] eqn:Ew; [|discriminate].
  injection Hc as <-.
  apply emitted_nth in Ew; try (unfold step; lia).
  rewrite Z.add_0_l in Ew. unfold window, step in Ew. fold start in Ew.
  subst w. split; [reflexivity|].
  apply split_join, slice_Forall, split_words.
Qed.

Lemma chunk_text_positions_witness :
  0 <= 3 /\ 1 < 3 /\ (length (split (str_of "a b c d e f g")) < 8)%nat
  /\ exists chunks,
       chunk_text 8 (str_of "a b c d e f g") 3 2 1 = Returned chunks
       /\ forall i c,
            nth_error chunks i = Some c ->
            let start := Z.of_nat i * (3 - 1) in
            c = join (str_of " ")
                  (slice (split (str_of "a b c d e f g")) start (start + 3))
            /\ split c = slice (split (str_of "a b c d e f g")) start (start + 3).
Proof.
  assert (H1 : 0 <= 3) by lia. assert (H2 : 1 < 3) by lia.
  assert (H3 : (length (split (str_of "a b c d e f g")) < 8)%nat)
    by (vm_compute; lia).
  split; [exact H1|]. split; [exact H2|]. split; [exact H3|].
  exact (chunk_text_positions (str_of "a b c d e f g") 3 2 1 8 H1 H2 H3).
Defined.

(** X2. With [1 <= min_words <= max_words], [overlap < max_words] and
    enough fuel, a text of [n] words gives no chunk when [n < min_words]
    and [(n - min_words) / (max_words - overlap) + 1] chunks otherwise,
    the quotient rounded down. *)
Theorem chunk_text_count (text : str) (max_words min_words overlap : Z)
  (fuel : nat) :
  1 <= min_words <= max_words -> overlap < max_words ->
  (length (split text) < fuel)%nat ->
  exists chunks,
    chunk_text fuel text max_words min_words overlap = Returned chunks
    /\ len chunks
       = if len (split text) <? min_words then 0
         else (len (split text) - min_words) / (max_words - overlap) + 1.
Proof.
  intros Hm Ho Hfuel. eexists. split; [apply chunk_text_emitted; assumption|].
  unfold len at 1. rewrite length_map.
  rewrite (emitted_count (split text) max_words min_words overlap);
    try (unfold step, len; lia).
  rewrite Z.sub_0_r. reflexivity.
Qed.

Lemma chunk_text_count_witness :
  1 <= 2 <= 4 /\ 1 < 4 /\ (length (split (str_of "a b c d e f g")) < 8)%nat
  /\ exists chunks,
       chunk_text 8 (str_of "a b c d e f g") 4 2 1 = Returned chunks
       /\ len chunks
          = if len (split (str_of "a b c d e f g")) <? 2 then 0
            else (len (split (str_of "a b c d e f g")) - 2) / (4 - 1) + 1.
Proof.
  assert (H1 : 1 <= 2 <= 4) by lia. assert (H2 : 1 < 4) by lia.
  assert (H3 : (length (split (str_of "a b c d e f g")) < 8)%nat)
    by (vm_compute; lia).
  split; [exact H1|]. split; [exact H2|]. split; [exact H3|].
  exact (chunk_text_count (str_of "a b c d e f g") 4 2 1 8 H1 H2 H3).
Defined.

(** X3. With [0 <= overlap < max_words] and enough fuel, the chunks of a
    text, put together without the overlaps, are the first words of the
    text, in order: no word is changed, repeated or out of place. When
    there is a chunk, the words at the end of the text that are in no
    chunk are fewer than [min_words - overlap]; none is missing when
    [min_words <= overlap + 1]. *)
Theorem chunk_text_stitch (text : str) (max_words min_words overlap : Z)
  (fuel : nat) :
  0 <= overlap < max_words -> (length (split text) < fuel)%nat ->
  exists chunks kept,
    chunk_text fuel text max_words min_words overlap = Returned chunks
    /\ (kept <= length (split text))%nat
    /\ stitch (Z.to_nat overlap) (map split chunks) = firstn kept (split text)
    /\ (chunks <> [] ->
        len (split text) - Z.of_nat kept <= Z.max 0 (min_words - overlap - 1))
    /\ (chunks <> [] -> min_words <= overlap + 1 ->
        stitch (Z.to_nat overlap) (map split chunks) = split text).
Proof.
  intros Ho Hfuel.
  set (words := split text).
  set (E := emitted words max_words min_words overlap (length words) 0).
  assert (Hwords : Forall (Forall is_word) E)
    by (apply emitted_words, split_words).
  assert (Hbounds : Forall (fun w => min_words <= len w <= max_words) E)
    by (apply emitted_bounds; unfold step; lia).
  assert (Hchunks : chunk_text fuel text max_words min_words overlap
                    = Returned (map (join (str_of " ")) E))
    by (apply chunk_text_emitted; lia).
  assert (Hgoal : exists kept,
             (kept <= length words)%nat
             /\ stitch (Z.to_nat overlap) E = firstn kept words
             /\ (E <> [] ->
                 len words - Z.of_nat kept <= Z.max 0 (min_words - overlap - 1)))
    by (apply emitted_stitch_all; unfold step, len; lia).
  destruct Hgoal as (kept & Hk & Hst & Hloss).
  exists (map (join (str_of " ")) E), kept.
  rewrite split_join_all by assumption.
  split; [exact Hchunks|]. split; [exact Hk|]. split; [exact Hst|].
  assert (HE : map (join (str_of " ")) E <> [] -> E <> [])
    by (intros H1 H2; apply H1; now rewrite H2).
  split.
  - intros Hne. apply Hloss, HE, Hne.
  - intros Hne Hmin. rewrite Hst. apply firstn_all2.
    specialize (Hloss (HE Hne)). unfold len in Hloss. lia.
Qed.

Lemma chunk_text_stitch_witness :
  0 <= 2 < 5 /\ (length (split (str_of "a b c d e f g h i")) < 10)%nat
  /\ exists chunks kept,
       chunk_text 10 (str_of "a b c d e f g h i") 5 4 2 = Returned chunks
       /\ (kept <= length (split (str_of "a b c d e f g h i")))%nat
       /\ stitch (Z.to_nat 2) (map split chunks)
          = firstn kept (split (str_of "a b c d e f g h i"))
       /\ (chunks <> [] ->
           len (split (str_of "a b c d e f g h i")) - Z.of_nat kept
           <= Z.max 0 (4 - 2 - 1))
       /\ (chunks <> [] -> 4 <= 2 + 1 ->
           stitch (Z.to_nat 2) (map split chunks)
           = split (str_of "a b c d e f g h i")).
Proof.
  assert (H1 : 0 <= 2 < 5) by lia.
  assert (H2 : (length (split (str_of "a b c d e f g h i")) < 10)%nat)
    by (vm_compute; lia).
  split; [exact H1|]. split; [exact H2|].
  exact (chunk_text_stitch (str_of "a b c d e f g h i") 5 4 2 10 H1 H2).
Defined.

End ChunkLayout.

(** ** [clean_gutenberg]: what the cleaned text is made of *)

Module CleanOutput.

Import Re Preprocess PyFacts CleanFacts CleanSpec.

(** A substitution keeps characters of the text and of the replacement
    only. *)
Lemma sub_from_Forall (P : char -> Prop) (r : regex) (repl : str) (s : str) :
  Forall P repl -> Forall P s ->
  forall skip, Forall P (sub_from r repl skip s).
Proof.
  intros Hrepl. induction 1 as [|c s Hc Hs IH]; intros skip; simpl;
    [constructor|].
  destruct skip as [|k]; [|apply IH].
  destruct (match_here r (c :: s)) as [[|n]|].
  - constructor; [assumption|apply IH].
  - apply Forall_app. split; [assumption|apply IH].
  - constructor; [assumption|apply IH].
Qed.

Lemma greedy_then_some (c : cls) (k : str -> option nat) (s : str) :
  (forall t, k t <> None) -> greedy_then c k s <> None.
Proof.
  intros Hk. induction s as [|x s IH]; simpl; [apply Hk|].
  destruct (cls_match c x); [|apply Hk].
  destruct (greedy_then c k s); [discriminate|apply Hk].
Qed.

(** [c+] matches at every character of the class [c], over one character
    at least. *)
Lemma match_here_plus (c : cls) (x : char) (s : str) :
  cls_match c x = true -> exists n, match_here [Plus c] (x :: s) = Some (S n).
Proof.
  intros Hx. simpl. rewrite Hx.
  destruct (greedy_then c (fun _ => Some O) s) as [n|] eqn:E.
  - exists n. reflexivity.
  - exfalso. revert E. apply greedy_then_some. discriminate.
Qed.

(** After the substitution of [c+], what is left of the text is outside
    the class [c]. *)
Lemma sub_from_plus (P : char -> Prop) (c : cls) (repl : str) (s : str) :
  Forall P repl ->
  Forall (fun x => cls_match c x = false -> P x) s ->
  forall skip, Forall P (sub_from [Plus c] repl skip s).
Proof.
  intros Hrepl. induction 1 as [|x s Hx Hs IH]; intros skip;
    [constructor|].
  cbn [sub_from]. destruct skip as [|k]; [|apply IH].
  destruct (cls_match c x) eqn:Ex.
  - destruct (match_here_plus c x s Ex) as [n ->].
    apply Forall_app. split; [assumption|apply IH].
  - assert (Hnone : match_here [Plus c] (x :: s) = None)
      by (simpl; now rewrite Ex).
    rewrite Hnone. constructor; [auto|apply IH].
Qed.

Lemma lstrip_Forall (P : char -> Prop) (s : str) :
  Forall P s -> Forall P (lstrip s).
Proof.
  induction 1 as [|c s Hc Hs IH]; simpl; [constructor|].
  destruct (is_space c); [assumption|now constructor].
Qed.

Lemma strip_Forall (P : char -> Prop) (s : str) :
  Forall P s -> Forall P (strip s).
Proof.
  intros H. unfold strip, rstrip.
  apply Forall_rev, lstrip_Forall, Forall_rev, lstrip_Forall, H.
Qed.

(** The characters that [postprocess] lets through. *)
Definition clean_char (c : char) : Prop :=
  c <> 95%N /\ (is_space c = true -> c = 32%N).

Lemma postprocess_chars (s : str) : Forall clean_char (postprocess s).
Proof.
  unfold postprocess, sub.
  apply sub_from_Forall; [constructor|].
  apply strip_Forall.
  apply sub_from_plus.
  - repeat constructor; discriminate.
  - eapply Forall_impl;
      [|apply (sub_from_plus (fun x => x <> 95%N) (Chr 95%N) [] s);
        [constructor|]].
    + intros x Hx Hsp. split; [exact Hx|]. intros Hs.
      simpl in Hsp. congruence.
    + apply Forall_forall. intros x _ Hm. simpl in Hm.
      now apply N.eqb_neq.
Qed.

(** Lengths. *)
Lemma sub_from_length (r : regex) (repl : str) (s : str) :
  (length repl <= 1)%nat ->
  forall skip, (length (sub_from r repl skip s) <= length s)%nat.
Proof.
  intros Hrepl. induction s as [|c s IH]; intros skip; simpl; [lia|].
  destruct skip as [|k]; [|specialize (IH k); lia].
  destruct (match_here r (c :: s)) as [[|n]|]; simpl.
  - specialize (IH O). lia.
  - rewrite length_app. specialize (IH n). lia.
  - specialize (IH O). lia.
Qed.

Lemma lstrip_length (s : str) : (length (lstrip s) <= length s)%nat.
Proof.
  induction s as [|c s IH]; simpl; [lia|].
  destruct (is_space c); simpl; lia.
Qed.

Lemma strip_length (s : str) : (length (strip s) <= length s)%nat.
Proof.
  unfold strip, rstrip. rewrite length_rev.
  pose proof (lstrip_length (rev (lstrip s))) as H.
  rewrite length_rev in H. pose proof (lstrip_length s). lia.
Qed.

Lemma postprocess_length (s : str) : len (postprocess s) <= len s.
Proof.
  unfold postprocess, sub, len.
  pose proof (sub_from_length contents_heading []
                (strip (sub_from whitespace_run (str_of " ")
                          0 (sub_from underscores [] 0 s)))
                ltac:(simpl; lia) 0).
  pose proof (strip_length (sub_from whitespace_run (str_of " ")
                              0 (sub_from underscores [] 0 s))).
  pose proof (sub_from_length whitespace_run (str_of " ")
                (sub_from underscores [] 0 s) ltac:(simpl; lia) 0).
  pose proof (sub_from_length underscores [] s ltac:(simpl; lia) 0).
  lia.
Qed.

Lemma extract_length (t s : str) :
  extract t = Returned s -> len s <= len t.
Proof.
  unfold extract.
  destruct (found (search start_pattern t) && found (search end_pattern t)).
  - destruct (match_end (search start_pattern t)) as [a| |]; simpl;
      try discriminate.
    destruct (match_start (search end_pattern t)) as [b| |]; simpl;
      try discriminate.
    intros H. injection H as <-.
    pose proof (strip_length (slice t a b)).
    pose proof (slice_length_le t a b). unfold len in *. lia.
  - destruct (Float.scaled_int Float.lit_0_1 (len t)) as [a| |]; simpl;
      try discriminate.
    destruct (Float.scaled_int Float.lit_0_9 (len t)) as [b| |]; simpl;
      try discriminate.
    intros H. injection H as <-. apply slice_length_le.
Qed.

(** X4. On every string of a length that Python allows,
    [clean_gutenberg] returns a string without underscore in which the
    only whitespace character is the space U+0020: no line break, tab or
    other Unicode space is left. *)
Theorem clean_gutenberg_characters (text : str) :
  len text <= PY_SSIZE_T_MAX ->
  exists s,
    clean_gutenberg text = Returned s
    /\ Forall (fun c => c <> 95%N /\ (is_space c = true -> c = 32%N)) s.
Proof.
  intros Hlen. unfold clean_gutenberg.
  destruct (extract_returns (normalize_newlines text)) as [story_text Hx].
  - pose proof (normalize_newlines_length text). lia.
  - rewrite Hx. simpl. eexists. split; [reflexivity|].
    apply postprocess_chars.
Qed.

Lemma clean_gutenberg_characters_witness :
  len (str_of "a_b  c") <= PY_SSIZE_T_MAX
  /\ exists s,
       clean_gutenberg (str_of "a_b  c") = Returned s
       /\ Forall (fun c => c <> 95%N /\ (is_space c = true -> c = 32%N)) s.
Proof.
  assert (H : len (str_of "a_b  c") <= PY_SSIZE_T_MAX)
    by (vm_compute; discriminate).
  split; [exact H|]. exact (clean_gutenberg_characters (str_of "a_b  c") H).
Defined.

(** X5. On every string of a length that Python allows,
    [clean_gutenberg] returns a string that is not longer than its
    argument. *)
Theorem clean_gutenberg_not_longer (text : str) :
  len text <= PY_SSIZE_T_MAX ->
  exists s, clean_gutenberg text = Returned s /\ len s <= len text.
Proof.
  intros Hlen. unfold clean_gutenberg.
  destruct (extract_returns (normalize_newlines text)) as [story_text Hx].
  - pose proof (normalize_newlines_length text). lia.
  - rewrite Hx. simpl. eexists. split; [reflexivity|].
    pose proof (postprocess_length story_text).
    pose proof (extract_length _ _ Hx).
    pose proof (normalize_newlines_length text). lia.
Qed.

Lemma clean_gutenberg_not_longer_witness :
  len (str_of "a_b  c") <= PY_SSIZE_T_MAX
  /\ exists s,
       clean_gutenberg (str_of "a_b  c") = Returned s
       /\ len s <= len (str_of "a_b  c").
Proof.
  assert (H : len (str_of "a_b  c") <= PY_SSIZE_T_MAX)
    by (vm_compute; discriminate).
  split; [exact H|]. exact (clean_gutenberg_not_longer (str_of "a_b  c") H).
Defined.

End CleanOutput.

(** ** [process_books]: the identifiers of a corpus *)

Module ProcessIds.

Import Preprocess PyFacts ProcessSpec.













End ProcessIds.

(** ** [download_books]: what it leaves behind *)

Module DownloadSpec.

Import Download.

Lemma write_text_other (fs : str -> option str) (dest text p : str) (c : str) :
  fs dest = None -> fs p = Some c -> write_text fs dest text p = Some c.
Proof.
  intros Hd Hp. unfold write_text.
  destruct (OverlapCheck.str_eqb p dest) eqn:E; [|exact Hp].
  apply AuditSpec.str_eqb_eq in E. subst p. congruence.
Qed.

Lemma write_text_same (fs : str -> option str) (dest text : str) :
  write_text fs dest text dest = Some text.
Proof. unfold write_text. now rewrite AuditSpec.str_eqb_refl. Qed.


(** Files are kept, whatever the end of the loop. *)
Lemma download_loop_keeps (get : list str -> str -> reply)
  (books : list (str * str)) :
  forall w w' e,
    download_loop get books w = (w', e) ->
    forall p c, files w p = Some c -> files w' p = Some c.
Proof.
  induction books as [|[name url] rest IH]; intros w w' e H p c Hp;
    simpl in H.
  - now injection H as <- _.
  - destruct (files w (dest_of name)) eqn:Hd; [now apply (IH w w' e)|].
    destruct (get (requested w) url) as [status text|e'].
    + destruct (is_error_status status).
      * now injection H as <- _.
      * destruct (Stdout.can_encode Stdout.utf_8 text).
        -- apply (IH _ w' e H). simpl. now apply write_text_other.
        -- injection H as <- _. simpl. now apply write_text_other.
    + now injection H as <- _.
Qed.

(** After a loop without exception the file of every book exists. *)
Lemma download_loop_complete (get : list str -> str -> reply)
  (books : list (str * str)) :
  forall w w',
    download_loop get books w = (w', None) ->
    forall name url, In (name, url) books -> files w' (dest_of name) <> None.
Proof.
  induction books as [|[name url] rest IH]; intros w w' H n u Hin;
    [destruct Hin|]. simpl in H.
  destruct (files w (dest_of name)) as [c|] eqn:Hd.
  - destruct Hin as [Heq|Hin]; [|now apply (IH w w' H n u)].
    injection Heq as <- <-.
    rewrite (download_loop_keeps get rest w w' None H _ c Hd). discriminate.
  - destruct (get (requested w) url) as [status text|e']; [|discriminate].
    destruct (is_error_status status); [discriminate|].
    destruct (Stdout.can_encode Stdout.utf_8 text); [|discriminate].
    destruct Hin as [Heq|Hin]; [|now apply (IH _ w' H n u)].
    injection Heq as <- <-.
    rewrite (download_loop_keeps get rest _ w' None H _ text);
      [discriminate|]. simpl. apply write_text_same.
Qed.

(** When the file of every book exists the loop does nothing. *)
Lemma download_loop_nothing (get : list str -> str -> reply)
  (books : list (str * str)) (w : world) :
  (forall name url, In (name, url) books -> files w (dest_of name) <> None) ->
  download_loop get books w = (w, None).
Proof.
  induction books as [|[name url] rest IH]; intros H; simpl; [reflexivity|].
  destruct (files w (dest_of name)) eqn:Hd.
  - apply IH. intros n u Hin. apply (H n u). now right.
  - exfalso. apply (H name url); [now left|exact Hd].
Qed.

(** X7. Whatever the network does and however [download_books] ends, a
    file that exists before the call has the same content after it, and
    every URL requested during the call is that of a book whose file did
    not exist before: a book that is there is neither fetched nor
    written again. *)
Theorem download_books_skips_existing (get : list str -> str -> reply)
  (books : list (str * str)) (w : world) :
  let w' := fst (download_loop get books w) in
  (forall p c, files w p = Some c -> files w' p = Some c)
  /\ exists asked,
       requested w' = requested w ++ asked
       /\ forall url, In url asked ->
            exists name, In (name, url) books /\ files w (dest_of name) = None.
Proof.
  intros w'. split.
  - apply (download_loop_keeps get books w w' (snd (download_loop get books w))).
    subst w'. now destruct (download_loop get books w).
  - subst w'. revert w.
    induction books as [|[name url] rest IH]; intros w; simpl.
    + exists []. split; [now rewrite app_nil_r|intros ? []].
    + destruct (files w (dest_of name)) eqn:Hd.
      * destruct (IH w) as (asked & Hreq & Hasked).
        exists asked. split; [exact Hreq|].
        intros u Hu. destruct (Hasked u Hu) as (n & Hin & Hn).
        exists n. split; [now right|exact Hn].
      * assert (Hone : forall u, In u [url] ->
                  exists n, In (n, u) ((name, url) :: rest)
                            /\ files w (dest_of n) = None).
        { intros u [<-|[]]. exists name. split; [now left|exact Hd]. }
        destruct (get (requested w) url) as [status text|e'].
        -- destruct (is_error_status status).
           ++ exists [url]. split; [reflexivity|exact Hone].
           ++ destruct (Stdout.can_encode Stdout.utf_8 text).
              ** match goal with
                 | |- context [download_loop get rest ?w2] =>
                     destruct (IH w2) as (asked & Hreq & Hasked)
                 end.
                 simpl in Hreq. exists (url :: asked). split.
                 --- rewrite Hreq, <- app_assoc. reflexivity.
                 --- intros u [<-|Hu]; [apply Hone; now left|].
                     destruct (Hasked u Hu) as (n & Hin & Hn). simpl in Hn.
                     exists n. split; [now right|].
                     unfold write_text in Hn.
                     destruct (OverlapCheck.str_eqb (dest_of n) (dest_of name));
                       [discriminate|exact Hn].
              ** exists [url]. split; [reflexivity|exact Hone].
        -- exists [url]. split; [reflexivity|exact Hone].
Qed.

(** X8. When [download_books] ends without exception the file of every
    book exists, and a second call, whatever the network does then,
    requests nothing and changes no file. *)
Theorem download_books_idempotent (get : list str -> str -> reply)
  (books : list (str * str)) (w : world) :
  snd (download_loop get books w) = None ->
  let w' := fst (download_loop get books w) in
  (forall name url, In (name, url) books -> files w' (dest_of name) <> None)
  /\ forall get', download_loop get' books w' = (w', None).
Proof.
  intros Hnone w'.
  assert (H : download_loop get books w = (w', None))
    by (subst w'; destruct (download_loop get books w); simpl in *; congruence).
  assert (Hall : forall name url,
             In (name, url) books -> files w' (dest_of name) <> None)
    by exact (download_loop_complete get books w w' H).
  split; [exact Hall|].
  intros get'. now apply download_loop_nothing.
Qed.

Definition empty_world : world := {| files := fun _ => None; requested := [] |}.

Definition serves_all : list str -> str -> reply :=
  fun _ url => Response 200 (str_of "text of " ++ url).

Lemma download_books_idempotent_witness :
  snd (download_loop serves_all BOOKS empty_world) = None
  /\ let w' := fst (download_loop serves_all BOOKS empty_world) in
     (forall name url, In (name, url) BOOKS -> files w' (dest_of name) <> None)
     /\ forall get', download_loop get' BOOKS w' = (w', None).
Proof.
  assert (H : snd (download_loop serves_all BOOKS empty_world) = None)
    by (vm_compute; reflexivity).
  split; [exact H|].
  exact (download_books_idempotent serves_all BOOKS empty_world H).
Defined.

(** X9. When [download_books] ends with an exception, it is at a book
    whose file did not exist: the loop over the books before it ended
    without exception, the URL of that book is the last one requested,
    and no book after it is requested. Either the request raised, and
    that is the exception; or the status code of the response is from
    400 to 599, and the exception is the [HTTPError] of that code; in
    both cases the files are those that the books before left and the
    file of the book does not exist. Or else the text of the response
    holds a surrogate, the exception is the [UnicodeEncodeError] of
    [write_text], and the file of the book exists and is empty, the
    other files being those that the books before left. *)
Theorem download_books_failure (get : list str -> str -> reply)
  (books : list (str * str)) (w : world) (e : fetch_exn) :
  snd (download_loop get books w) = Some e ->
  let w' := fst (download_loop get books w) in
  exists before name url after w0,
    books = before ++ (name, url) :: after
    /\ download_loop get before w = (w0, None)
    /\ files w0 (dest_of name) = None
    /\ requested w' = requested w0 ++ [url]
    /\ match get (requested w0) url with
       | Raises e' =>
           e = e' /\ files w' = files w0 /\ files w' (dest_of name) = None
       | Response status_code text =>
           (e = HTTPError status_code /\ 400 <= status_code < 600
            /\ files w' = files w0 /\ files w' (dest_of name) = None)
           \/ (e = Builtin UnicodeEncodeError
               /\ ~ 400 <= status_code < 600
               /\ Stdout.can_encode Stdout.utf_8 text = false
               /\ files w' = write_text (files w0) (dest_of name) []
               /\ files w' (dest_of name) = Some [])
       end.
Proof.
  revert w. induction books as [|[name url] rest IH]; intros w H;
    simpl in H; [discriminate|]. simpl.
  destruct (files w (dest_of name)) as [c|] eqn:Hd.
  - destruct (IH w H) as (before & n & u & after & w0 & Hb & Hrun & Hrest).
    exists ((name, url) :: before), n, u, after, w0.
    split; [now rewrite Hb|]. split; [|exact Hrest].
    simpl. now rewrite Hd.
  - destruct (get (requested w) url) as [status text|e'] eqn:Hget.
    + destruct (is_error_status status) eqn:Hst.
      * simpl in H. injection H as <-.
        exists [], name, url, rest, w. simpl. rewrite Hget.
        split; [reflexivity|]. split; [reflexivity|]. split; [exact Hd|].
        split; [reflexivity|]. left.
        unfold is_error_status in Hst. repeat split; try assumption; lia.
      * destruct (Stdout.can_encode Stdout.utf_8 text) eqn:Henc.
        -- match type of H with
           | snd (download_loop get rest ?w2) = _ =>
               destruct (IH w2 H)
                 as (before & n & u & after & w0 & Hb & Hrun & Hrest)
           end.
           exists ((name, url) :: before), n, u, after, w0.
           split; [now rewrite Hb|]. split; [|exact Hrest].
           simpl. now rewrite Hd, Hget, Hst, Henc.
        -- simpl in H. injection H as <-.
           exists [], name, url, rest, w. simpl. rewrite Hget.
           split; [reflexivity|]. split; [reflexivity|]. split; [exact Hd|].
           split; [reflexivity|]. right.
           unfold is_error_status in Hst.
           split; [reflexivity|]. split; [lia|]. split; [exact Henc|].
           split; [reflexivity|]. apply write_text_same.
    + simpl in H. injection H as <-.
      exists [], name, url, rest, w. simpl. rewrite Hget.
      repeat split; assumption.
Qed.

(** A network on which the third request is answered by a text with the
    lone surrogate U+D83D, and one on which it is answered by a page
    that is not found. *)
Definition third_has_surrogate : list str -> str -> reply :=
  fun asked url =>
    if Nat.eqb (length asked) 2
    then Response 200 (str_of "The Hound " ++ [55357%N])
    else Response 200 (str_of "text of " ++ url).

Definition third_is_missing : list str -> str -> reply :=
  fun asked url =>
    if Nat.eqb (length asked) 2 then Response 404 (str_of "Not Found")
    else Response 200 (str_of "text of " ++ url).

Lemma download_books_failure_witness :
  snd (download_loop third_has_surrogate BOOKS empty_world)
  = Some (Builtin UnicodeEncodeError)
  /\ let w' := fst (download_loop third_has_surrogate BOOKS empty_world) in
     exists before name url after w0,
       BOOKS = before ++ (name, url) :: after
       /\ download_loop third_has_surrogate before empty_world = (w0, None)
       /\ files w0 (dest_of name) = None
       /\ requested w' = requested w0 ++ [url]
       /\ match third_has_surrogate (requested w0) url with
          | Raises e' =>
              Builtin UnicodeEncodeError = e' /\ files w' = files w0
              /\ files w' (dest_of name) = None
          | Response status_code text =>
              (Builtin UnicodeEncodeError = HTTPError status_code
               /\ 400 <= status_code < 600
               /\ files w' = files w0 /\ files w' (dest_of name) = None)
              \/ (Builtin UnicodeEncodeError = Builtin UnicodeEncodeError
                  /\ ~ 400 <= status_code < 600
                  /\ Stdout.can_encode Stdout.utf_8 text = false
                  /\ files w' = write_text (files w0) (dest_of name) []
                  /\ files w' (dest_of name) = Some [])
          end.
Proof.
  assert (H : snd (download_loop third_has_surrogate BOOKS empty_world)
              = Some (Builtin UnicodeEncodeError)) by (vm_compute; reflexivity).
  split; [exact H|].
  exact (download_books_failure third_has_surrogate BOOKS empty_world
           (Builtin UnicodeEncodeError) H).
Defined.

(** The two runs, evaluated: three requests each; after the text with a
    surrogate the file of the third book is empty, after the page that
    is not found it does not exist; the files of the first two books
    hold their texts. *)
Example download_books_third_fails :
  let w1 := fst (download_loop third_has_surrogate BOOKS empty_world) in
  let w2 := fst (download_loop third_is_missing BOOKS empty_world) in
  snd (download_loop third_is_missing BOOKS empty_world)
  = Some (HTTPError 404)
  /\ length (requested w1) = 3%nat /\ length (requested w2) = 3%nat
  /\ files w1 (dest_of (str_of "hound_baskervilles")) = Some []
  /\ files w2 (dest_of (str_of "hound_baskervilles")) = None
  /\ files w1 (dest_of (str_of "sign_of_four"))
     = Some (str_of "text of https://www.gutenberg.org/cache/epub/2097/pg2097.txt")
  /\ files w1 (dest_of (str_of "valley_of_fear")) = None.
Proof. repeat split; vm_compute; reflexivity. Qed.




End DownloadSpec.

(** ** Loading the chunk files *)

Module LoadingSpec.

Import Loading.

(** An item holds a pair when the pair is what is under its two keys. *)
Definition holds (it : item) (c : str * str) : Prop :=
  it (str_of "id") = Some (fst c) /\ it (str_of "text") = Some (snd c).

Definition complete (it : item) : Prop :=
  it (str_of "id") <> None /\ it (str_of "text") <> None.

(** The key whose lookup fails on an item: ["id"] is looked up first. *)
Definition missing (it : item) (key : str) : Prop :=
  (key = str_of "id" /\ it (str_of "id") = None)
  \/ (key = str_of "text" /\ it (str_of "id") <> None
      /\ it (str_of "text") = None).

Lemma append_pairs_app (d1 d2 : list item) :
  forall acc,
    append_pairs (d1 ++ d2) acc
    = match append_pairs d1 acc with
      | Loaded acc' => append_pairs d2 acc'
      | KeyError k => KeyError k
      end.
Proof.
  induction d1 as [|it d1 IH]; intros acc; simpl; [reflexivity|].
  destruct (getitem it (str_of "id")); [|reflexivity].
  destruct (getitem it (str_of "text")); [|reflexivity].
  apply IH.
Qed.

(** Reading file after file is reading the items of all files in a row. *)
Lemma load_files_concat (files : list (list item)) :
  forall acc, load_files files acc = append_pairs (concat files) acc.
Proof.
  induction files as [|data files IH]; intros acc; simpl; [reflexivity|].
  rewrite append_pairs_app.
  destruct (append_pairs data acc); [apply IH|reflexivity].
Qed.

Lemma append_pairs_loaded (data : list item) :
  forall acc out,
    append_pairs data acc = Loaded out
    <-> exists pairs, out = acc ++ pairs /\ Forall2 holds data pairs.
Proof.
  induction data as [|it data IH]; intros acc out; simpl.
  - split.
    + intros H. injection H as <-. exists []. rewrite app_nil_r.
      split; [reflexivity|constructor].
    + intros (pairs & -> & H). inversion H. now rewrite app_nil_r.
  - unfold getitem.
    destruct (it (str_of "id")) as [i|] eqn:Ei.
    + destruct (it (str_of "text")) as [t|] eqn:Et.
      * rewrite IH. split.
        -- intros (pairs & -> & H). exists ((i, t) :: pairs).
           rewrite <- app_assoc. split; [reflexivity|].
           constructor; [split; assumption|exact H].
        -- intros (pairs & -> & H).
           inversion H as [|? c ? pairs' [Hi Ht] H']; subst.
           exists pairs'. rewrite <- app_assoc. simpl.
           destruct c as [i' t']. simpl in Hi, Ht.
           rewrite Ei in Hi. rewrite Et in Ht.
           injection Hi as ->. injection Ht as ->.
           split; [reflexivity|exact H'].
      * split; [discriminate|].
        intros (pairs & _ & H). inversion H as [|? c ? ? [_ Ht] _]; subst.
        rewrite Et in Ht. discriminate.
    + split; [discriminate|].
      intros (pairs & _ & H). inversion H as [|? c ? ? [Hi _] _]; subst.
      rewrite Ei in Hi. discriminate.
Qed.

Lemma append_pairs_key_error (data : list item) :
  forall acc key,
    append_pairs data acc = KeyError key
    <-> exists before it after,
          data = before ++ it :: after
          /\ Forall complete before /\ missing it key.
Proof.
  induction data as [|it data IH]; intros acc key; simpl.
  - split; [discriminate|].
    intros (before & it & after & H & _). now destruct before.
  - unfold getitem.
    destruct (it (str_of "id")) as [i|] eqn:Ei.
    + destruct (it (str_of "text")) as [t|] eqn:Et.
      * rewrite IH. split.
        -- intros (before & it' & after & -> & Hb & Hm).
           exists (it :: before), it', after. split; [reflexivity|].
           split; [|exact Hm]. constructor; [|exact Hb].
           split; congruence.
        -- intros (before & it' & after & H & Hb & Hm).
           destruct before as [|x before]; simpl in H.
           ++ injection H as <- _. exfalso.
              destruct Hm as [[_ Hm]|(_ & _ & Hm)]; congruence.
           ++ injection H as <- ->. inversion Hb; subst.
              exists before, it', after. now repeat split.
      * split.
        -- intros H. injection H as <-. exists [], it, data.
           split; [reflexivity|]. split; [constructor|].
           right. split; [reflexivity|]. split; congruence.
        -- intros (before & it' & after & H & Hb & Hm).
           destruct before as [|x before]; simpl in H.
           ++ injection H as <- _. f_equal.
              destruct Hm as [[_ Hm]|(-> & _ & _)]; [congruence|reflexivity].
           ++ injection H as <- _. inversion Hb as [|? ? [_ Hx] _]; subst.
              contradiction.
    + split.
      * intros H. injection H as <-. exists [], it, data.
        split; [reflexivity|]. split; [constructor|]. left. now split.
      * intros (before & it' & after & H & Hb & Hm).
        destruct before as [|x before]; simpl in H.
        -- injection H as <- _. f_equal.
           destruct Hm as [[-> _]|(_ & Hm & _)]; [reflexivity|contradiction].
        -- injection H as <- _. inversion Hb as [|? ? [Hx _] _]; subst.
           contradiction.
Qed.

(** X11. [load_chunks] returns exactly when every item of every file has
    the keys ["id"] and ["text"], and then it returns the pairs of all
    items, file after file and in the order of each file. Otherwise it
    raises [KeyError] at the first item that lacks a key, items before it
    being complete: for ["id"] when that is absent, for ["text"] when
    only that is absent. *)
Theorem load_chunks_pairs (files : list (list item)) :
  (forall chunks,
     load_chunks files = Loaded chunks
     <-> Forall2 holds (concat files) chunks)
  /\ (forall key,
        load_chunks files = KeyError key
        <-> exists before it after,
              concat files = before ++ it :: after
              /\ Forall complete before /\ missing it key).
Proof.
  unfold load_chunks. split.
  - intros chunks. rewrite load_files_concat, append_pairs_loaded. split.
    + intros (pairs & -> & H). exact H.
    + intros H. now exists chunks.
  - intros key. rewrite load_files_concat. apply append_pairs_key_error.
Qed.

Lemma texts_of_app (d1 d2 : list item) :
  texts_of (d1 ++ d2)
  = match texts_of d1 with
    | Loaded ts1 =>
        match texts_of d2 with
        | Loaded ts2 => Loaded (ts1 ++ ts2)
        | KeyError k => KeyError k
        end
    | KeyError k => KeyError k
    end.
Proof.
  induction d1 as [|it d1 IH]; simpl.
  - destruct (texts_of d2); reflexivity.
  - destruct (getitem it (str_of "text")); [|reflexivity].
    rewrite IH. destruct (texts_of d1); [|reflexivity].
    destruct (texts_of d2); reflexivity.
Qed.

Lemma extend_files_concat (files : list (list item)) :
  forall data,
    extend_files files data
    = match texts_of (concat files) with
      | Loaded ts => Loaded (data ++ ts)
      | KeyError k => KeyError k
      end.
Proof.
  induction files as [|chunks files IH]; intros data; simpl.
  - now rewrite app_nil_r.
  - rewrite texts_of_app. destruct (texts_of chunks) as [ts|]; [|reflexivity].
    rewrite IH. destruct (texts_of (concat files)); [|reflexivity].
    now rewrite app_assoc.
Qed.

Lemma texts_of_loaded (data : list item) :
  forall ts,
    texts_of data = Loaded ts
    <-> Forall2 (fun it t => it (str_of "text") = Some t) data ts.
Proof.
  induction data as [|it data IH]; intros ts; simpl.
  - split.
    + intros H. injection H as <-. constructor.
    + intros H. now inversion H.
  - unfold getitem. destruct (it (str_of "text")) as [t|] eqn:Et.
    + destruct (texts_of data) as [ts'|] eqn:E.
      * split.
        -- intros H. injection H as <-. constructor; [exact Et|].
           now apply IH.
        -- intros H. inversion H as [|? t' ? ts'' Ht H']; subst.
           rewrite Et in Ht. injection Ht as ->.
           apply IH in H'. now injection H' as ->.
      * split; [discriminate|].
        intros H. inversion H as [|? t' ? ts'' Ht H']; subst.
        apply IH in H'. discriminate.
    + split; [discriminate|].
      intros H. inversion H as [|? t' ? ts'' Ht H']; subst.
      rewrite Et in Ht. discriminate.
Qed.

Lemma texts_of_key_error (data : list item) (key : str) :
  texts_of data = KeyError key ->
  key = str_of "text" /\ exists it, In it data /\ it (str_of "text") = None.
Proof.
  induction data as [|it data IH]; simpl; [discriminate|].
  unfold getitem. destruct (it (str_of "text")) as [t|] eqn:Et.
  - destruct (texts_of data) as [ts|k]; [discriminate|].
    intros H. injection H as ->. destruct IH as (Hk & it' & Hin & Hnone);
      [reflexivity|].
    split; [exact Hk|]. exists it'. split; [now right|exact Hnone].
  - intros H. injection H as <-. split; [reflexivity|].
    exists it. split; [now left|exact Et].
Qed.

(** X12. When every item of every file has a key ["text"],
    [load_dataset] hands the texts of all items, file after file and in
    the order of each file, to [Dataset.from_list], and what that gives
    is its result. When an item has no key ["text"] it raises
    [KeyError] for that key and [Dataset.from_list] is not called. On
    files that [load_chunks] reads, the texts handed over are the texts
    of the pairs that the audit examines, in the same order. *)
Theorem load_dataset_texts (D : Type) (from_list : list str -> D)
  (files : list (list item)) :
  (forall ts,
     Forall2 (fun it t => it (str_of "text") = Some t) (concat files) ts ->
     load_dataset from_list files = Loaded (from_list ts))
  /\ ((exists it, In it (concat files) /\ it (str_of "text") = None)
      <-> load_dataset from_list files = KeyError (str_of "text"))
  /\ (forall key,
        load_dataset from_list files = KeyError key -> key = str_of "text")
  /\ (forall chunks,
        load_chunks files = Loaded chunks ->
        load_dataset from_list files = Loaded (from_list (map snd chunks))).
Proof.
  assert (Hrun : load_dataset from_list files
                 = match texts_of (concat files) with
                   | Loaded ts => Loaded (from_list ts)
                   | KeyError k => KeyError k
                   end).
  { unfold load_dataset. rewrite extend_files_concat.
    destruct (texts_of (concat files)); reflexivity. }
  assert (Hts : forall ts,
             Forall2 (fun it t => it (str_of "text") = Some t)
               (concat files) ts ->
             load_dataset from_list files = Loaded (from_list ts)).
  { intros ts H. apply texts_of_loaded in H. now rewrite Hrun, H. }
  split; [exact Hts|]. split; [|split].
  - rewrite Hrun. split.
    + intros (it & Hin & Hnone).
      destruct (texts_of (concat files)) as [ts|k] eqn:E.
      * exfalso. apply texts_of_loaded in E.
        clear Hrun Hts. induction E as [|it' t data ts' Ht _ IH];
          [destruct Hin|].
        destruct Hin as [->|Hin]; [congruence|auto].
      * apply texts_of_key_error in E as [-> _]. reflexivity.
    + destruct (texts_of (concat files)) as [ts|k] eqn:E; [discriminate|].
      intros _. now apply texts_of_key_error in E as [_ H].
  - intros key. rewrite Hrun.
    destruct (texts_of (concat files)) as [ts|k] eqn:E; [discriminate|].
    intros H. injection H as ->. now apply texts_of_key_error in E as [H _].
  - intros chunks H. apply Hts.
    unfold load_chunks in H. rewrite load_files_concat in H.
    apply append_pairs_loaded in H as (pairs & -> & H). simpl.
    clear Hts Hrun. induction H as [|it c data pairs [_ Ht] _ IH]; simpl;
      constructor; assumption.
Qed.

(** Two chunk files: two records of one book, one of another. *)
Definition two_files : list (list item) :=
  [ [ item_of {| Preprocess.id := str_of "a_0"; Preprocess.text := str_of "x" |};
      item_of {| Preprocess.id := str_of "a_1"; Preprocess.text := str_of "y" |} ];
    [ item_of {| Preprocess.id := str_of "b_0"; Preprocess.text := str_of "z" |} ] ].

Lemma load_dataset_texts_witness :
  load_chunks two_files
  = Loaded [ (str_of "a_0", str_of "x"); (str_of "a_1", str_of "y");
             (str_of "b_0", str_of "z") ]
  /\ load_dataset (fun ts => ts) two_files
     = Loaded [str_of "x"; str_of "y"; str_of "z"].
Proof.
  assert (H : load_chunks two_files
              = Loaded [ (str_of "a_0", str_of "x"); (str_of "a_1", str_of "y");
                         (str_of "b_0", str_of "z") ])
    by (vm_compute; reflexivity).
  split; [exact H|].
  exact (proj2 (proj2 (proj2
           (load_dataset_texts (list str) (fun ts => ts) two_files))) _ H).
Defined.

End LoadingSpec.

(** ** [basic_stats]: the figures of a chunk set *)

Module StatsSpec.

Import Float OverlapCheck PyFacts FloatFacts.

Lemma split_from_length (s : str) :
  forall w,
    (length (split_from w s)
     <= length s + match w with [] => 0 | _ => 1 end)%nat.
Proof.
  induction s as [|c s IH]; intros w; simpl.
  - destruct w; simpl; lia.
  - destruct (is_space c).
    + specialize (IH []). simpl in IH. destruct w; simpl; lia.
    + specialize (IH (w ++ [c])).
      destruct (w ++ [c]) eqn:E; [now destruct w|]. lia.
Qed.

(** A text has no more words than characters. *)
Lemma split_length (s : str) : len (split s) <= len s.
Proof.
  unfold split, len. pose proof (split_from_length s []). simpl in H. lia.
Qed.

Lemma fold_add_bounds (lo hi : Z) (l : list Z) :
  Forall (fun n => lo <= n <= hi) l ->
  forall a, a + lo * len l <= fold_left Z.add l a <= a + hi * len l.
Proof.
  induction 1 as [|x l Hx _ IH]; intros a; simpl.
  - unfold len. simpl. lia.
  - specialize (IH (a + x)). unfold len in *. simpl length.
    rewrite Nat2Z.inj_succ. nia.
Qed.

Lemma sum_bounds (lo hi : Z) (l : list Z) :
  Forall (fun n => lo <= n <= hi) l ->
  lo * len l <= sum l <= hi * len l.
Proof. intros H. apply (fold_add_bounds lo hi l H 0). Qed.

Lemma fold_min_least (l : list Z) :
  forall x,
    (fold_left Z.min l x = x \/ In (fold_left Z.min l x) l)
    /\ fold_left Z.min l x <= x
    /\ Forall (fun n => fold_left Z.min l x <= n) l.
Proof.
  induction l as [|y l IH]; intros x; simpl.
  - split; [now left|]. split; [lia|constructor].
  - destruct (IH (Z.min x y)) as (Hin & Hle & Hall).
    split; [|split].
    + destruct Hin as [Heq|Hin]; [|now right; right].
      rewrite Heq. destruct (Z.min_spec x y) as [[_ ->]|[_ ->]]; auto.
    + lia.
    + constructor; [lia|exact Hall].
Qed.

Lemma fold_max_greatest (l : list Z) :
  forall x,
    (fold_left Z.max l x = x \/ In (fold_left Z.max l x) l)
    /\ x <= fold_left Z.max l x
    /\ Forall (fun n => n <= fold_left Z.max l x) l.
Proof.
  induction l as [|y l IH]; intros x; simpl.
  - split; [now left|]. split; [lia|constructor].
  - destruct (IH (Z.max x y)) as (Hin & Hle & Hall).
    split; [|split].
    + destruct Hin as [Heq|Hin]; [|now right; right].
      rewrite Heq. destruct (Z.max_spec x y) as [[_ ->]|[_ ->]]; auto.
    + lia.
    + constructor; [lia|exact Hall].
Qed.

(** [min] and [max] of a list that is not empty. *)
Lemma py_min_least (l : list Z) :
  l <> [] ->
  exists m, py_min l = Returned m /\ In m l /\ Forall (fun n => m <= n) l.
Proof.
  destruct l as [|x l]; [congruence|]. intros _. simpl.
  destruct (fold_min_least l x) as (Hin & Hle & Hall).
  eexists. split; [reflexivity|]. split.
  - destruct Hin as [->|Hin]; [now left|now right].
  - constructor; assumption.
Qed.

Lemma py_max_greatest (l : list Z) :
  l <> [] ->
  exists m, py_max l = Returned m /\ In m l /\ Forall (fun n => n <= m) l.
Proof.
  destruct l as [|x l]; [congruence|]. intros _. simpl.
  destruct (fold_max_greatest l x) as (Hin & Hle & Hall).
  eexists. split; [reflexivity|]. split.
  - destruct Hin as [->|Hin]; [now left|now right].
  - constructor; assumption.
Qed.

(** The quotient of two integers is finite when it is below [2^1000]. *)
Lemma int_truediv_returns (hi a b : Z) :
  0 < b -> 0 <= a <= hi * b -> hi < 2 ^ 1000 ->
  exists m e, int_truediv a b = Returned (Finite m e).
Proof.
  intros Hb Ha Hhi. unfold int_truediv.
  destruct (b =? 0) eqn:Eb; [apply Z.eqb_eq in Eb; lia|].
  set (k := bit_length b + prec + 2).
  assert (Hk : 0 <= k)
    by (pose proof (bit_length_nonneg b); unfold k, prec; lia).
  set (q := a * 2 ^ k / b).
  set (sticky := if a * 2 ^ k mod b =? 0 then 0 else 1).
  assert (Hp : 0 < 2 ^ k) by (apply Z.pow_pos_nonneg; lia).
  assert (Hq0 : 0 <= q) by (apply Z.div_pos; nia).
  assert (Hq : q <= hi * 2 ^ k)
    by (apply Z.div_le_upper_bound; [lia|nia]).
  assert (Hs : 0 <= sticky <= 1) by (unfold sticky; destruct (a * 2 ^ k mod b =? 0); lia).
  assert (Hm : 2 * q + sticky < 2 ^ (1000 + (k + 2))).
  { rewrite Z.pow_add_r by lia.
    replace (2 ^ (k + 2)) with (4 * 2 ^ k)
      by (rewrite Z.pow_add_r by lia; change (2 ^ 2) with 4; lia).
    nia. }
  apply bit_length_below in Hm; [|lia].
  destruct (round_ne_finite (2 * q + sticky) (- (k + 1)))
    as (m & e & Hr & _ & _); [lia|unfold emax; lia|].
  rewrite Hr. now exists m, e.
Qed.

(** A value between two integers below [2^53] is rounded to a double
    between them. *)
Lemma round_ne_between (lo hi m e : Z) :
  e <= 0 -> 0 <= lo -> hi < 2 ^ 53 ->
  lo * 2 ^ (- e) <= m <= hi * 2 ^ (- e) ->
  exists m' e',
    round_ne m e = Finite m' e' /\ e' <= 0
    /\ lo * 2 ^ (- e') <= m' <= hi * 2 ^ (- e').
Proof.
  intros He Hlo Hhi Hm.
  set (P := 2 ^ (- e)) in *.
  assert (HP : 0 < P) by (apply Z.pow_pos_nonneg; lia).
  assert (Hm0 : 0 <= m)
    by (assert (0 <= lo * P) by (apply Z.mul_nonneg_nonneg; lia); lia).
  assert (Hlt : m < 2 ^ (53 - e)).
  { replace (53 - e) with (53 + - e) by lia.
    rewrite Z.pow_add_r by lia. fold P. nia. }
  assert (Hbl : bit_length m <= 53 - e) by (apply bit_length_below; lia).
  unfold round_ne.
  set (e' := Z.max (bit_length m + e - prec) emin).
  assert (He' : e' <= 0) by (unfold e', prec, emin; lia).
  destruct (e' <=? e) eqn:Ee.
  - apply Z.leb_le in Ee. rewrite (Z.max_l e e') by lia.
    destruct (emax <? bit_length m + e) eqn:Eo;
      [apply Z.ltb_lt in Eo; unfold emax in Eo; lia|].
    exists m, e. auto.
  - apply Z.leb_gt in Ee. rewrite (Z.max_r e e') by lia.
    set (sh := e' - e).
    assert (Hsh : 0 < sh) by (unfold sh; lia).
    set (T := 2 ^ (- e')).
    assert (HT : 0 < T) by (apply Z.pow_pos_nonneg; lia).
    set (D := 2 ^ sh).
    assert (HD : 0 < D) by (apply Z.pow_pos_nonneg; lia).
    assert (HPT : P = T * D).
    { unfold P, T, D. rewrite <- Z.pow_add_r by lia. f_equal.
      unfold sh. lia. }
    assert (Hhalf : 0 < 2 ^ (sh - 1)) by (apply Z.pow_pos_nonneg; lia).
    set (q := m / D). set (r := m mod D).
    assert (Hdiv : m = D * q + r) by (apply Z.div_mod; lia).
    assert (Hr : 0 <= r < D) by (apply Z.mod_pos_bound; lia).
    rewrite HPT in Hm.
    assert (Hql : lo * T <= q) by nia.
    assert (Hqh : q <= hi * T) by nia.
    assert (Hqr : 0 < r -> q + 1 <= hi * T) by nia.
    match goal with
    | |- context [if emax <? bit_length ?q' + e' then _ else _] =>
        set (q1 := q');
        assert (Hq1 : q1 = q \/ (q1 = q + 1 /\ 0 < r))
          by (subst q1;
              destruct (r <? 2 ^ (sh - 1)) eqn:E1; [now left|];
              apply Z.ltb_ge in E1;
              destruct (2 ^ (sh - 1) <? r); [right; split; [reflexivity|lia]|];
              destruct (Z.even q); [now left|right; split; [reflexivity|lia]])
    end.
    assert (Hb1 : lo * T <= q1 <= hi * T)
      by (destruct Hq1 as [->|[-> Hr0]]; [lia|specialize (Hqr Hr0); lia]).
    assert (Hlt1 : q1 < 2 ^ (53 - e')).
    { replace (53 - e') with (53 + - e') by lia.
      rewrite Z.pow_add_r by lia. fold T. nia. }
    apply bit_length_below in Hlt1; [|lia].
    destruct (emax <? bit_length q1 + e') eqn:Eo;
      [apply Z.ltb_lt in Eo; unfold emax in Eo; lia|].
    exists q1, e'. auto.
Qed.

(** The rational value of a double between two integers. *)
Lemma to_Q_between (lo hi m e : Z) :
  e <= 0 -> lo * 2 ^ (- e) <= m <= hi * 2 ^ (- e) ->
  exists v,
    to_Q (Finite m e) = Some v
    /\ (inject_Z lo <= v)%Q /\ (v <= inject_Z hi)%Q.
Proof.
  intros He Hm. unfold to_Q. eexists. split; [reflexivity|].
  rewrite Qred_correct.
  destruct (0 <=? e) eqn:E.
  - apply Z.leb_le in E. assert (e = 0) by lia. subst e.
    simpl in Hm. rewrite Z.pow_0_r. unfold Qle. simpl. lia.
  - assert (HP : 0 < 2 ^ (- e)) by (apply Z.pow_pos_nonneg; lia).
    unfold Qle. simpl. rewrite Z2Pos.id by exact HP. lia.
Qed.

(** The quotient of two integers, when it lies between two integers
    below [2^53], is rounded to a double between them. *)
Lemma int_truediv_between (lo hi a b : Z) :
  0 < b -> 0 <= lo -> hi < 2 ^ 53 -> lo * b <= a <= hi * b ->
  exists x v,
    int_truediv a b = Returned x /\ to_Q x = Some v
    /\ (inject_Z lo <= v)%Q /\ (v <= inject_Z hi)%Q.
Proof.
  intros Hb Hlo Hhi Ha. unfold int_truediv.
  destruct (b =? 0) eqn:Eb; [apply Z.eqb_eq in Eb; lia|].
  set (k := bit_length b + prec + 2).
  assert (Hk : 0 <= k)
    by (pose proof (bit_length_nonneg b); unfold k, prec; lia).
  set (A := a * 2 ^ k).
  set (q := A / b). set (r := A mod b).
  set (sticky := if r =? 0 then 0 else 1).
  assert (Hp : 0 < 2 ^ k) by (apply Z.pow_pos_nonneg; lia).
  assert (Hdiv : A = b * q + r) by (apply Z.div_mod; lia).
  assert (Hr : 0 <= r < b) by (apply Z.mod_pos_bound; lia).
  assert (HA : lo * 2 ^ k * b <= A <= hi * 2 ^ k * b) by (unfold A; nia).
  assert (Hq : lo * 2 ^ k <= q <= hi * 2 ^ k) by nia.
  assert (Hs : 0 <= sticky <= 1 /\ (sticky = 1 -> 0 < r)).
  { unfold sticky. destruct (r =? 0) eqn:Er; [lia|].
    apply Z.eqb_neq in Er. lia. }
  assert (Hqs : sticky = 1 -> q < hi * 2 ^ k) by nia.
  assert (Hm : lo * 2 ^ (- - (k + 1)) <= 2 * q + sticky
               <= hi * 2 ^ (- - (k + 1))).
  { rewrite Z.opp_involutive, Z.pow_add_r by lia.
    change (2 ^ 1) with 2. lia. }
  destruct (round_ne_between lo hi (2 * q + sticky) (- (k + 1)))
    as (m' & e' & Hrn & He' & Hb'); [lia|assumption..|].
  rewrite Hrn.
  destruct (to_Q_between lo hi m' e' He' Hb') as (v & Hv & Hl & Hh).
  now exists (Finite m' e'), v.
Qed.

(** X13. On a chunk set that is not empty, of texts of a length that a
    string can have, [basic_stats] returns: the total is the number of
    chunks, and the minimum and the maximum are the least and the
    greatest number of words of a chunk. *)
Theorem basic_stats_extremes (chunks : list (str * str)) :
  chunks <> [] ->
  Forall (fun c => len (snd c) <= PY_SSIZE_T_MAX) chunks ->
  let word_counts := map (fun c => len (split (snd c))) chunks in
  exists st,
    basic_stats chunks = Returned st
    /\ total_chunks st = len chunks
    /\ In (min_words st) word_counts
    /\ Forall (fun n => min_words st <= n) word_counts
    /\ In (max_words st) word_counts
    /\ Forall (fun n => n <= max_words st) word_counts.
Proof.
  intros Hne Hlen word_counts.
  assert (Hwc : word_counts <> [])
    by (subst word_counts; destruct chunks; [congruence|discriminate]).
  assert (Hb : Forall (fun n => 0 <= n <= PY_SSIZE_T_MAX) word_counts).
  { subst word_counts. apply Forall_map.
    eapply Forall_impl; [|exact Hlen]. intros [i t] Hc. simpl in *.
    pose proof (split_length t). pose proof (len_nonneg (split t)).
    lia. }
  assert (Hn : 0 < len chunks)
    by (destruct chunks; [congruence|unfold len; simpl; lia]).
  assert (Hl : len word_counts = len chunks)
    by (subst word_counts; unfold len; now rewrite length_map).
  pose proof (sum_bounds 0 PY_SSIZE_T_MAX word_counts Hb) as Hsum.
  rewrite Hl in Hsum.
  destruct (int_truediv_returns PY_SSIZE_T_MAX (sum word_counts) (len chunks))
    as (m & e & Hdiv); [lia|lia|unfold PY_SSIZE_T_MAX; lia|].
  destruct (py_min_least word_counts Hwc) as (mn & Hmn & Hmn_in & Hmn_le).
  destruct (py_max_greatest word_counts Hwc) as (mx & Hmx & Hmx_in & Hmx_ge).
  unfold basic_stats. fold word_counts.
  rewrite Hdiv. simpl. rewrite Hmn. simpl. rewrite Hmx. simpl.
  eexists. split; [reflexivity|]. simpl. auto.
Qed.

Definition three_chunks : list (str * str) :=
  [(str_of "a_0", str_of "one two three");
   (str_of "a_1", str_of "four");
   (str_of "b_0", str_of "five six")].

Lemma basic_stats_extremes_witness :
  exists st,
    basic_stats three_chunks = Returned st
    /\ total_chunks st = 3
    /\ In (min_words st) [3; 1; 2]
    /\ Forall (fun n => min_words st <= n) [3; 1; 2]
    /\ In (max_words st) [3; 1; 2]
    /\ Forall (fun n => n <= max_words st) [3; 1; 2].
Proof.
  apply (basic_stats_extremes three_chunks).
  - discriminate.
  - repeat constructor; vm_compute; discriminate.
Defined.

(** The figures of a chunk set whose word counts are below [2^53]. *)
Lemma basic_stats_figures (chunks : list (str * str)) :
  chunks <> [] ->
  Forall (fun c => len (split (snd c)) < 2 ^ 53) chunks ->
  let word_counts := map (fun c => len (split (snd c))) chunks in
  exists st v,
    basic_stats chunks = Returned st
    /\ total_chunks st = len chunks
    /\ In (min_words st) word_counts
    /\ In (max_words st) word_counts
    /\ to_Q (avg_words st) = Some v
    /\ (inject_Z (min_words st) <= v)%Q
    /\ (v <= inject_Z (max_words st))%Q.
Proof.
  intros Hne Hlen word_counts.
  assert (Hwc : word_counts <> [])
    by (subst word_counts; destruct chunks; [congruence|discriminate]).
  assert (Hn : 0 < len chunks)
    by (destruct chunks; [congruence|unfold len; simpl; lia]).
  assert (Hl : len word_counts = len chunks)
    by (subst word_counts; unfold len; now rewrite length_map).
  destruct (py_min_least word_counts Hwc) as (mn & Hmn & Hmn_in & Hmn_le).
  destruct (py_max_greatest word_counts Hwc) as (mx & Hmx & Hmx_in & Hmx_ge).
  assert (Hmn0 : 0 <= mn).
  { pose proof Hmn_in as Hin. subst word_counts.
    apply in_map_iff in Hin as (c & <- & _). apply len_nonneg. }
  assert (Hmx53 : mx < 2 ^ 53).
  { pose proof Hmx_in as Hin. subst word_counts.
    apply in_map_iff in Hin as (c & <- & Hc).
    rewrite Forall_forall in Hlen. now apply Hlen. }
  assert (Hb : Forall (fun n => mn <= n <= mx) word_counts).
  { rewrite Forall_forall in *. intros n Hin.
    split; [now apply Hmn_le|now apply Hmx_ge]. }
  pose proof (sum_bounds mn mx word_counts Hb) as Hsum. rewrite Hl in Hsum.
  destruct (int_truediv_between mn mx (sum word_counts) (len chunks))
    as (x & v & Hdiv & Hv & Hlo & Hhi); try assumption.
  unfold basic_stats. fold word_counts.
  rewrite Hdiv. simpl. rewrite Hmn. simpl. rewrite Hmx. simpl.
  eexists. exists v. split; [reflexivity|]. simpl. auto 10.
Qed.

(** X14. When no chunk has [2^53] words or more, the mean that
    [basic_stats] reports lies between the minimum and the maximum that
    it reports. *)
Theorem basic_stats_mean_between (chunks : list (str * str)) :
  chunks <> [] ->
  Forall (fun c => len (split (snd c)) < 2 ^ 53) chunks ->
  exists st v,
    basic_stats chunks = Returned st
    /\ to_Q (avg_words st) = Some v
    /\ (inject_Z (min_words st) <= v)%Q
    /\ (v <= inject_Z (max_words st))%Q.
Proof.
  intros Hne Hlen.
  destruct (basic_stats_figures chunks Hne Hlen)
    as (st & v & Hst & _ & _ & _ & Hv & Hlo & Hhi).
  now exists st, v.
Qed.

Lemma basic_stats_mean_between_witness :
  exists st v,
    basic_stats three_chunks = Returned st
    /\ to_Q (avg_words st) = Some v
    /\ (inject_Z (min_words st) <= v)%Q
    /\ (v <= inject_Z (max_words st))%Q.
Proof.
  apply (basic_stats_mean_between three_chunks).
  - discriminate.
  - repeat constructor; vm_compute; reflexivity.
Defined.

End StatsSpec.

(** ** [detect_duplicates] and [sample_chunks]: what is printed *)

Module PrintedSpec.

Import OverlapCheck Loading PyFacts AuditSpec.

(** [x] stands before [y] in [l]. *)
Definition precedes {A : Type} (x y : A) (l : list A) : Prop :=
  exists l1 l2 l3, l = l1 ++ x :: l2 ++ y :: l3.

Lemma duplicates_filter (chunks : list (str * str)) (top_n : Z) :
  fst (detect_duplicates chunks top_n)
  = filter (fun tc => 1 <? snd tc) (Counter (map snd chunks)).
Proof. unfold detect_duplicates. destruct (filter _ _); reflexivity. Qed.

Lemma duplicates_none (texts : list str) :
  filter (fun tc : str * Z => 1 <? snd tc) (Counter texts) = []
  <-> NoDup texts.
Proof.
  destruct (Counter_counts texts) as (Hnd & Hkeys & Hget).
  rewrite (NoDup_count_occ str_dec). split.
  - intros Hf t.
    destruct (le_lt_dec (count_occ str_dec texts t) 1) as [|Hgt];
      [assumption|exfalso].
    assert (Hin : In (t, counter_get (Counter texts) t)
                    (filter (fun tc : str * Z => 1 <? snd tc) (Counter texts))).
    { apply filter_In. split.
      - apply counter_in_get; [assumption|]. split; [|reflexivity].
        apply Hkeys. apply (count_occ_In str_dec). lia.
      - simpl. rewrite Hget. apply Z.ltb_lt. lia. }
    rewrite Hf in Hin. destruct Hin.
  - intros Hocc.
    destruct (filter _ _) as [|[t n] rest] eqn:Hf; [reflexivity|exfalso].
    assert (Hin : In (t, n)
                    (filter (fun tc : str * Z => 1 <? snd tc) (Counter texts)))
      by (rewrite Hf; now left).
    apply filter_In in Hin as [Hin Hn]. simpl in Hn. apply Z.ltb_lt in Hn.
    apply counter_in_get in Hin as [_ Hc]; [|assumption].
    rewrite Hget in Hc. specialize (Hocc t). lia.
Qed.

(** X15. [detect_duplicates] reports that there is no duplicate exactly
    when no two chunks have the same text. *)
Theorem detect_duplicates_none (chunks : list (str * str)) (top_n : Z) :
  snd (detect_duplicates chunks top_n) = [NoDuplicates]
  <-> NoDup (map snd chunks).
Proof.
  rewrite <- duplicates_none. unfold detect_duplicates.
  destruct (filter _ _); simpl; split; intros H;
    try reflexivity; discriminate.
Qed.

(** The keys of a counter stand in the order in which the texts were
    first met. *)
Lemma precedes_app_last {A : Type} (x y z : A) (l : list A) :
  precedes x y (l ++ [z]) -> precedes x y l \/ (In x l /\ y = z).
Proof.
  intros (l1 & l2 & l3 & H).
  destruct l3 as [|w l3 _] using rev_ind.
  - right.
    replace (l1 ++ x :: l2 ++ [y]) with ((l1 ++ x :: l2) ++ [y]) in H
      by (rewrite <- app_assoc; reflexivity).
    apply app_inj_tail in H as [-> ->]. split; [|reflexivity].
    apply in_app_iff. right. now left.
  - left.
    replace (l1 ++ x :: l2 ++ y :: l3 ++ [w])
      with ((l1 ++ x :: l2 ++ y :: l3) ++ [w]) in H
      by (rewrite <- !app_assoc; simpl; rewrite <- app_assoc; reflexivity).
    apply app_inj_tail in H as [-> _]. now exists l1, l2, l3.
Qed.

Lemma counter_add_keys (t : str) (c : list (str * Z)) :
  map fst (counter_add t c)
  = if existsb (fun k => str_eqb k t) (map fst c)
    then map fst c else map fst c ++ [t].
Proof.
  induction c as [|[k n] c IH]; simpl; [reflexivity|].
  destruct (str_eqb k t) eqn:E; simpl; [reflexivity|].
  rewrite IH. now destruct (existsb _ _).
Qed.

Lemma counter_order (texts : list str) :
  forall t1 t2,
    precedes t1 t2 (map fst (Counter texts)) ->
    exists p s, texts = p ++ t2 :: s /\ In t1 p /\ ~ In t2 p.
Proof.
  induction texts as [|t texts IH] using rev_ind; intros t1 t2 H.
  - destruct H as (l1 & l2 & l3 & H). now destruct l1.
  - assert (Hc : Counter (texts ++ [t]) = counter_add t (Counter texts))
      by (unfold Counter; now rewrite fold_left_app).
    rewrite Hc, counter_add_keys in H.
    destruct (Counter_counts texts) as (_ & Hkeys & _).
    destruct (existsb _ _) eqn:Ex.
    + destruct (IH t1 t2 H) as (p & s & -> & Hin & Hnot).
      exists p, (s ++ [t]). rewrite <- app_assoc. now repeat split.
    + apply precedes_app_last in H as [H|[Hin ->]].
      * destruct (IH t1 t2 H) as (p & s & -> & Hin & Hnot).
        exists p, (s ++ [t]). rewrite <- app_assoc. now repeat split.
      * exists texts, []. split; [reflexivity|]. split; [now apply Hkeys|].
        intros Hin'. apply Hkeys in Hin'.
        assert (Ht : existsb (fun k => str_eqb k t)
                       (map fst (Counter texts)) = true)
          by (apply existsb_exists; exists t; split;
              [assumption|apply str_eqb_refl]).
        congruence.
Qed.

Lemma precedes_filter {A B : Type} (f : A -> B) (p : A -> bool)
  (x y : B) (l : list A) :
  precedes x y (map f (filter p l)) -> precedes x y (map f l).
Proof.
  induction l as [|a l IH]; simpl; [auto|].
  destruct (p a); simpl.
  - intros (l1 & l2 & l3 & H). destruct l1 as [|b l1]; simpl in H.
    + injection H as <- H.
      assert (Hy : In y (map f l)).
      { assert (Hin : In y (map f (filter p l)))
          by (rewrite H; apply in_app_iff; right; now left).
        apply in_map_iff in Hin as (z & <- & Hz).
        apply filter_In in Hz as [Hz _]. now apply in_map. }
      apply in_split in Hy as (m1 & m2 & ->).
      now exists [], m1, m2.
    + injection H as <- H.
      destruct IH as (m1 & m2 & m3 & ->); [now exists l1, l2, l3|].
      now exists (f a :: m1), m2, m3.
  - intros H. destruct (IH H) as (m1 & m2 & m3 & ->).
    now exists (f a :: m1), m2, m3.
Qed.

(** X16. The groups that [detect_duplicates] collects stand in the order
    in which their texts first occur among the chunks: when the group of
    [t1] stands before that of [t2], [t1] occurs before the first
    occurrence of [t2]. *)
Theorem detect_duplicates_order (chunks : list (str * str)) (top_n : Z)
  (t1 t2 : str) :
  precedes t1 t2 (map fst (fst (detect_duplicates chunks top_n))) ->
  exists p s, map snd chunks = p ++ t2 :: s /\ In t1 p /\ ~ In t2 p.
Proof.
  rewrite duplicates_filter. intros H.
  apply precedes_filter in H. now apply counter_order.
Qed.

Definition repeated_chunks : list (str * str) :=
  [(str_of "a_0", str_of "x"); (str_of "a_1", str_of "y");
   (str_of "a_2", str_of "y"); (str_of "a_3", str_of "x")].

Lemma detect_duplicates_order_witness :
  precedes (str_of "x") (str_of "y")
    (map fst (fst (detect_duplicates repeated_chunks default_top_n)))
  /\ exists p s,
       map snd repeated_chunks = p ++ str_of "y" :: s
       /\ In (str_of "x") p /\ ~ In (str_of "y") p.
Proof.
  assert (H : precedes (str_of "x") (str_of "y")
                (map fst (fst (detect_duplicates repeated_chunks
                                 default_top_n))))
    by (exists [], [], []; reflexivity).
  split; [exact H|].
  exact (detect_duplicates_order repeated_chunks default_top_n _ _ H).
Defined.

(** A snippet: line feeds are replaced by spaces. *)
Lemma replace_char (a b : char) (s : str) :
  replace [a] [b] s = map (fun c => if N.eqb a c then b else c) s.
Proof.
  unfold replace. induction s as [|c s IH]; simpl; [reflexivity|].
  destruct (N.eqb a c); simpl; now rewrite IH.
Qed.

Definition snippet (n : Z) (t : str) : str :=
  replace [10%N] (str_of " ") (slice t 0 n).

Lemma snippet_spec (n : Z) (t : str) :
  0 <= n ->
  snippet n t
  = map (fun c => if N.eqb 10 c then 32%N else c) (firstn (Z.to_nat n) t)
  /\ len (snippet n t) <= n
  /\ ~ In 10%N (snippet n t).
Proof.
  intros Hn. unfold snippet. change (str_of " ") with [32%N].
  rewrite replace_char, slice_nonneg by lia.
  rewrite Z.sub_0_r. simpl skipn. split; [reflexivity|]. split.
  - unfold len. rewrite length_map, length_firstn. lia.
  - intros Hin. apply in_map_iff in Hin as (c & Hc & _).
    destruct (N.eqb_spec 10 c); [discriminate|congruence].
Qed.

Lemma slice_In {A : Type} (l : list A) (a b : Z) (x : A) :
  In x (slice l a b) -> In x l.
Proof.
  intros H.
  assert (F : Forall (fun y => In y l) (slice l a b))
    by (apply slice_Forall, Forall_forall; auto).
  rewrite Forall_forall in F. auto.
Qed.

(** X17. Whatever the chunks, every line that [detect_duplicates] prints
    for a group carries a count above one, which is the number of chunks
    with the text of the group, and a snippet of at most a hundred
    characters without a line feed: the first hundred characters of the
    text, line feeds replaced by spaces. For a [top_n] that is not
    negative at most [top_n] such lines follow the first line. *)
Theorem detect_duplicates_lines (chunks : list (str * str)) (top_n : Z) :
  let printed := snd (detect_duplicates chunks top_n) in
  (forall count s,
     In (DuplicateLine count s) printed ->
     1 < count /\ len s <= 100 /\ ~ In 10%N s
     /\ exists t,
          count = Z.of_nat (count_occ str_dec (map snd chunks) t)
          /\ s = map (fun c => if N.eqb 10 c then 32%N else c) (firstn 100 t))
  /\ (0 <= top_n -> len printed <= top_n + 1)
  /\ len printed <= len (fst (detect_duplicates chunks top_n)) + 1.
Proof.
  intros printed.
  pose proof (duplicates_filter chunks top_n) as Hd.
  destruct (Counter_counts (map snd chunks)) as (Hnd & Hkeys & Hget).
  subst printed. unfold detect_duplicates in *.
  destruct (filter _ _) as [|d ds] eqn:Hf; simpl fst in *; simpl snd.
  - split; [|split].
    + intros count s [H|[]]. discriminate.
    + intros H. unfold len. simpl. lia.
    + unfold len. simpl. lia.
  - split; [|split].
    + intros count s [H|H]; [discriminate|].
      apply in_map_iff in H as ([t n] & Heq & Hin). simpl in Heq.
      injection Heq as -> <-.
      apply slice_In in Hin. rewrite <- Hf in Hin.
      apply filter_In in Hin as [Hin Hn]. simpl in Hn. apply Z.ltb_lt in Hn.
      apply counter_in_get in Hin as [_ Hc]; [|assumption].
      rewrite Hget in Hc.
      destruct (snippet_spec 100 t) as (Hs & Hl & Hnl); [lia|].
      unfold snippet in *. split; [exact Hn|]. split; [exact Hl|].
      split; [exact Hnl|]. exists t. split; [now symmetry|exact Hs].
    + intros Htop.
      pose proof (slice_window_length (d :: ds) 0 top_n ltac:(lia) Htop) as Hw.
      change (0 + top_n) with top_n in Hw.
      unfold len. simpl length. rewrite length_map.
      match goal with
      | |- context [Datatypes.length ?x] =>
          assert (Hx : len x = Z.min top_n (Z.max 0 (len (d :: ds) - 0)))
            by exact Hw
      end.
      unfold len in Hx. unfold str in *. lia.
    + pose proof (slice_length_le (d :: ds) 0 top_n) as Hw.
      unfold len. simpl length. rewrite length_map.
      match goal with
      | |- context [Datatypes.length (slice ?l ?a ?b)] =>
          assert (Hx : len (slice l a b) <= len l) by exact Hw
      end.
      unfold len in Hx. simpl length in Hx. unfold str in *. lia.
Qed.

(** The lines that are written before the first that the standard
    output cannot take. *)
Fixpoint take_while {A : Type} (p : A -> bool) (l : list A) : list A :=
  match l with
  | [] => []
  | x :: l' => if p x then x :: take_while p l' else []
  end.

Lemma sample_loop_prints (enc : Stdout.encoding)
  (l : list (nat * (str * str))) :
  let lines := map (fun ic => sample_line (fst ic) (snd (snd ic))) l in
  sample_loop l enc
  = (take_while (Stdout.can_encode enc) lines,
     if forallb (Stdout.can_encode enc) lines then Returned tt
     else Raised UnicodeEncodeError).
Proof.
  induction l as [|[i [c t]] l IH]; [reflexivity|].
  cbn [sample_loop map fst snd take_while forallb].
  unfold Stdout.then_, Stdout.print.
  destruct (Stdout.can_encode enc (sample_line i t)); [|reflexivity].
  cbv zeta in IH. rewrite IH. reflexivity.
Qed.

Lemma forallb_utf_8_snippet (l : str) :
  forallb Stdout.utf_8 (map (fun c => if N.eqb 10 c then 32%N else c) l)
  = forallb Stdout.utf_8 l.
Proof.
  induction l as [|c l IH]; [reflexivity|].
  cbn [map forallb]. rewrite IH. f_equal.
  destruct (N.eqb_spec 10 c) as [<-|_]; reflexivity.
Qed.

Lemma combine_seq_nth {A : Type} (l : list A) :
  forall i x a,
    nth_error l i = Some x ->
    nth_error (combine (seq a (length l)) l) i = Some ((a + i)%nat, x).
Proof.
  induction l as [|y l IH]; intros [|i] x a Hi; simpl in *;
    try discriminate.
  - injection Hi as ->. now rewrite Nat.add_0_r.
  - rewrite (IH i x (S a) Hi). do 2 f_equal. lia.
Qed.

(** X18. For [n] not negative, [sample_chunks] has one line for each of
    the first [n] chunks, or for every chunk if these are fewer, after
    its heading: the line of the chunk at index [i] holds [i + 1], a
    full stop, a space, the snippet, three full stops and a line feed,
    the snippet being the first three hundred characters of the text
    with line feeds replaced by spaces. The lines are written in order
    up to the first that the standard output cannot encode, at which
    [sample_chunks] raises [UnicodeEncodeError]; when there is none it
    writes them all and returns. UTF-8 encodes the heading, and the line
    of a chunk exactly when the first three hundred characters of its
    text hold no surrogate. *)
Theorem sample_chunks_lines (chunks : list (str * str)) (n : Z)
  (enc : Stdout.encoding) :
  0 <= n ->
  let first := firstn (Z.to_nat n) chunks in
  let lines := map (fun ic => sample_line (fst ic) (snd (snd ic)))
                 (enumerate first) in
  len lines = Z.min n (len chunks)
  /\ sample_chunks chunks n enc
     = (take_while (Stdout.can_encode enc) (samples_heading :: lines),
        if forallb (Stdout.can_encode enc) (samples_heading :: lines)
        then Returned tt else Raised UnicodeEncodeError)
  /\ (forall i c,
        nth_error first i = Some c ->
        nth_error lines i
        = Some (str_of_nat (i + 1) ++ str_of ". " ++ snippet 300 (snd c)
                ++ str_of "..." ++ [10%N])
        /\ snippet 300 (snd c)
           = map (fun x => if N.eqb 10 x then 32%N else x)
               (firstn 300 (snd c))
        /\ len (snippet 300 (snd c)) <= 300
        /\ ~ In 10%N (snippet 300 (snd c))
        /\ Stdout.can_encode Stdout.utf_8 (sample_line i (snd c))
           = Stdout.can_encode Stdout.utf_8 (firstn 300 (snd c)))
  /\ Stdout.can_encode Stdout.utf_8 samples_heading = true.
Proof.
  intros Hn first lines.
  assert (Hs : slice chunks 0 n = first)
    by (subst first; rewrite slice_nonneg by lia; now rewrite Z.sub_0_r).
  assert (Hl : length (enumerate first) = length first)
    by (unfold enumerate; rewrite length_combine, length_seq; lia).
  split; [|split; [|split]].
  - subst lines. unfold len. rewrite length_map, Hl. subst first.
    rewrite length_firstn. lia.
  - unfold sample_chunks. rewrite Hs.
    unfold Stdout.then_ at 1. unfold Stdout.print.
    cbn [take_while forallb].
    destruct (Stdout.can_encode enc samples_heading); [|reflexivity].
    rewrite sample_loop_prints. fold lines. reflexivity.
  - intros i c Hi.
    assert (Hline : nth_error lines i = Some (sample_line i (snd c))).
    { subst lines. rewrite nth_error_map. unfold enumerate.
      assert (Hc : nth_error (combine (seq 0 (length first)) first) i
                   = Some (i, c)) by exact (combine_seq_nth first i c 0 Hi).
      rewrite Hc. reflexivity. }
    destruct (snippet_spec 300 (snd c)) as (Hsn & Hlen & Hnl); [lia|].
    split; [exact Hline|]. split; [exact Hsn|]. split; [exact Hlen|].
    split; [exact Hnl|].
    unfold Stdout.can_encode, sample_line. fold (snippet 300 (snd c)).
    rewrite !forallb_app, Hsn, forallb_utf_8_snippet.
    unfold str_of_nat. rewrite CleanSpec.digits_of_utf_8.
    simpl. now rewrite andb_true_r.
  - reflexivity.
Qed.

(** Three chunks, the text of the second with the lone surrogate U+D83D:
    the heading and one line are written. *)
Definition chunks_with_surrogate : list (str * str) :=
  [ (str_of "a_0", str_of "one" ++ [10%N] ++ str_of "two");
    (str_of "a_1", str_of "three " ++ [55357%N]);
    (str_of "a_2", str_of "four") ].

Lemma sample_chunks_lines_witness :
  sample_chunks chunks_with_surrogate 5 Stdout.utf_8
  = ([samples_heading; str_of "1. one two..." ++ [10%N]],
     Raised UnicodeEncodeError)
  /\ sample_chunks chunks_with_surrogate 1 Stdout.utf_8
     = ([samples_heading; str_of "1. one two..." ++ [10%N]], Returned tt).
Proof.
  assert (H5 : 0 <= 5) by lia. assert (H1 : 0 <= 1) by lia.
  destruct (sample_chunks_lines chunks_with_surrogate 5 Stdout.utf_8 H5)
    as (_ & R5 & _).
  destruct (sample_chunks_lines chunks_with_surrogate 1 Stdout.utf_8 H1)
    as (_ & R1 & _).
  split; [rewrite R5|rewrite R1]; vm_compute; reflexivity.
Defined.

End PrintedSpec.

(** ** From [process_books] to the audit *)

Module PipelineSpec.

Import Float Preprocess OverlapCheck PyFacts ProcessSpec.
Import StatsSpec.







End PipelineSpec.
